(** * heka: the pipeline runner (pipeline/pipeline_runner.go)

    A shallow embedding of the per-message pipeline of hekad: the
    [PipelinePack] work unit and its reset ([Zero]), the chain router and
    filter loop ([filterProcessor]), the event broadcaster
    ([BroadcastEvent]) and the pack pool that [Run] builds around the
    [pipeline] closure and its recycle channel.

    Go maps are [gmap]s, [range] over a map is an enumeration of the map's
    entries in an order the model does not fix, pointers to a pack are a
    pack threaded through the state, and the calls the program makes to
    plugins and to the logger are recorded in a trace. *)

From Stdlib Require Import ZArith.
From stdpp Require Import gmap strings list fin_maps.

Open Scope string_scope.
Open Scope list_scope.
Open Scope nat_scope.

(** ** Go values *)

(** A byte slice: its backing array (from the slice's first element to the
    end of the allocation) and its length.  [cap] is the size of the
    backing array. *)
Record Slice := mkSlice { array : list Byte.byte; len : nat }.

Definition cap (s : Slice) : nat := length (array s).

(** [make([]byte, n)] *)
Definition make_bytes (n : nat) : Slice :=
  {| array := replicate n Byte.x00; len := n |}.

(** [s[:cap(s)]]: the high bound equals the capacity, so the slice
    expression never goes out of range. *)
Definition reslice_to_cap (s : Slice) : Slice :=
  {| array := array s; len := cap s |}.

(** Go's [int] on the 64-bit targets hekad is built for. *)
Definition int_wrap (z : Z) : Z := ((z + 2 ^ 63) mod 2 ^ 64 - 2 ^ 63)%Z.

Definition newline : string := String (Ascii.ascii_of_nat 10) EmptyString.

(** The types the file takes from the rest of the package: the message
    ([heka/message]), the plugin instances behind the [Decoder], [Filter],
    [Output] and [PluginGlobal] interfaces, and the state these plugins,
    the logger and the notification topic keep outside the pack
    ([World]). *)
Class PluginTypes := {
  Msg : Type;
  World : Type;
  DecoderT : Type;
  FilterT : Type;
  OutputT : Type;
  GlobalT : Type
}.

(** Go produces the entries of a map in an unspecified order.  [rangeMap]
    is the order a [range] statement produces; [RangeMapOk] is all the
    proofs know about it: every entry of the map is produced once. *)
Class MapRange := rangeMap : ∀ V : Type, gmap string V → list (string * V).
Arguments rangeMap {_ V} _.

Definition RangeMapOk (R : MapRange) : Prop :=
  ∀ (V : Type) (m : gmap string V), rangeMap m ≡ₚ map_to_list m.

(** The order stdpp lists a map in is one such order. *)
Definition rangeSorted : MapRange := λ V m, map_to_list m.

(** Control channel event types used by go-notify. *)
Definition RELOAD : string := "reload".
Definition STOP : string := "stop".

Inductive PluginKind := KFilter | KOutput.

#[export] Instance PluginKind_eq_dec : EqDecision PluginKind.
Proof. solve_decision. Defined.

Section Model.

Context `{PluginTypes}.

(** ** Data *)

(** Modelled from the spec: [PluginWrapper] is declared outside this file.
    It "associates a plugin name with a factory capable of producing fresh
    plugin instances and, for plugins that maintain cross-message shared
    state, a single shared global instance"; [global = None] is Go's
    [wrapper.global == nil]. *)
Record PluginWrapper (T : Type) := mkWrapper {
  Create : World → T * World;
  global : option GlobalT
}.
Arguments Create {T} _ _.
Arguments global {T} _.

(** Modelled from the spec: a named chain is "an ordered list of filter
    names plus an unordered set of output names"; the file ranges over both
    as Go slices. *)
Record FilterChainDef := mkChain {
  chainOutputs : list string;
  chainFilters : list string
}.

(** Modelled from the spec: the chain lookup,
    [LocateChain(message) -> (chainName, found)]. *)
Record MessageLookup := mkLookup {
  LocateChain : Msg → string * bool
}.

(** Modelled from the spec: [PipelineConfig], with the fields this file
    reads. *)
Record PipelineConfig := mkConfig {
  DefaultDecoder : string;
  DefaultFilterChain : string;
  PoolSize : Z;
  cfgDecoders : gmap string (PluginWrapper DecoderT);
  cfgFilters : gmap string (PluginWrapper FilterT);
  cfgOutputs : gmap string (PluginWrapper OutputT);
  FilterChains : gmap string FilterChainDef;
  Lookup : MessageLookup
}.

Record PipelinePack := mkPack {
  MsgBytes : Slice;
  Message : Msg;
  Config : PipelineConfig;
  Decoder : string;
  Decoders : gmap string DecoderT;
  Filters : gmap string FilterT;
  Outputs : gmap string OutputT;
  Decoded : bool;
  Blocked : bool;
  FilterChain : string;
  ChainCount : Z;
  OutputNames : gmap string bool
}.

Definition set_MsgBytes (v : Slice) (p : PipelinePack) : PipelinePack :=
  mkPack v (Message p) (Config p) (Decoder p) (Decoders p) (Filters p)
    (Outputs p) (Decoded p) (Blocked p) (FilterChain p) (ChainCount p)
    (OutputNames p).
Definition set_Decoder (v : string) (p : PipelinePack) : PipelinePack :=
  mkPack (MsgBytes p) (Message p) (Config p) v (Decoders p) (Filters p)
    (Outputs p) (Decoded p) (Blocked p) (FilterChain p) (ChainCount p)
    (OutputNames p).
Definition set_Decoders (v : gmap string DecoderT) (p : PipelinePack) : PipelinePack :=
  mkPack (MsgBytes p) (Message p) (Config p) (Decoder p) v (Filters p)
    (Outputs p) (Decoded p) (Blocked p) (FilterChain p) (ChainCount p)
    (OutputNames p).
Definition set_Filters (v : gmap string FilterT) (p : PipelinePack) : PipelinePack :=
  mkPack (MsgBytes p) (Message p) (Config p) (Decoder p) (Decoders p) v
    (Outputs p) (Decoded p) (Blocked p) (FilterChain p) (ChainCount p)
    (OutputNames p).
Definition set_Outputs (v : gmap string OutputT) (p : PipelinePack) : PipelinePack :=
  mkPack (MsgBytes p) (Message p) (Config p) (Decoder p) (Decoders p)
    (Filters p) v (Decoded p) (Blocked p) (FilterChain p) (ChainCount p)
    (OutputNames p).
Definition set_Decoded (v : bool) (p : PipelinePack) : PipelinePack :=
  mkPack (MsgBytes p) (Message p) (Config p) (Decoder p) (Decoders p)
    (Filters p) (Outputs p) v (Blocked p) (FilterChain p) (ChainCount p)
    (OutputNames p).
Definition set_Blocked (v : bool) (p : PipelinePack) : PipelinePack :=
  mkPack (MsgBytes p) (Message p) (Config p) (Decoder p) (Decoders p)
    (Filters p) (Outputs p) (Decoded p) v (FilterChain p) (ChainCount p)
    (OutputNames p).
Definition set_FilterChain (v : string) (p : PipelinePack) : PipelinePack :=
  mkPack (MsgBytes p) (Message p) (Config p) (Decoder p) (Decoders p)
    (Filters p) (Outputs p) (Decoded p) (Blocked p) v (ChainCount p)
    (OutputNames p).
Definition set_OutputNames (v : gmap string bool) (p : PipelinePack) : PipelinePack :=
  mkPack (MsgBytes p) (Message p) (Config p) (Decoder p) (Decoders p)
    (Filters p) (Outputs p) (Decoded p) (Blocked p) (FilterChain p)
    (ChainCount p) v.

(** Modelled from the spec: the capabilities the core consumes, which the
    package declares outside this file.  [Decode] "mutates the unit's
    message field from its raw buffer" and may fail; [FilterMsg] "may set
    Blocked; may mutate the unit's message or routing state"; [Deliver] is
    a "side-effecting sink", so it reads the pack and changes the world
    only; [Event] is the handler of a plugin's shared state;
    [notifyPost] is [notify.Post(eventType, nil)] and [emptyMessage] is
    [Message{}].  An error is the text its [Error()] gives.  Plugin calls
    return: a plugin that panics or loops is outside the model. *)
Class Plugins := {
  emptyMessage : Msg;
  Decode : DecoderT → PipelinePack → World → PipelinePack * World * option string;
  FilterMsg : FilterT → PipelinePack → World → PipelinePack * World;
  Deliver : OutputT → PipelinePack → World → World;
  Event : GlobalT → string → World → World;
  notifyPost : string → World → World * option string
}.

Context `{Plugins} `{MapRange}.

(** ** What a run does

    The calls a run makes to plugins, to the logger, to [Zero] and to the
    recycle channel, in order.  A filter call records the pack as the
    filter left it. *)
Inductive Effect :=
| Log (line : string)
| CallDecode (decoderName : string) (err : option string)
| CallFilterMsg (filterName : string) (after : PipelinePack)
| CallFilterMsgNil (filterName : string)
| CallDeliver (outputName : string)
| CallZero
| SendRecycle
| CallPost (eventType : string) (err : option string)
| CallEvent (kind : PluginKind) (pluginName : string) (eventType : string).

(** A buffered channel of packs: [make(chan *PipelinePack, n)]. *)
Record Chan := mkChan { chanCap : nat; chanBuf : list PipelinePack }.

(** [make] panics on a negative size.  It also panics on a size whose
    buffer the runtime cannot allocate; that limit is the runtime's and the
    platform's, not this file's, and is not modelled: [Some] says that the
    size is not negative, [None] that [make] panics. *)
Definition make_chan (size : Z) : option Chan :=
  if (size <? 0)%Z then None else Some (mkChan (Z.to_nat size) []).

(** [c <- x]: [None] when the buffer is full and the sender has to wait. *)
Definition chan_send (c : Chan) (x : PipelinePack) : option Chan :=
  if (length (chanBuf c) <? chanCap c)%nat
  then Some (mkChan (chanCap c) (chanBuf c ++ [x]))
  else None.

(** [<-c]: [None] when the buffer is empty and the receiver has to wait. *)
Definition chan_recv (c : Chan) : option (PipelinePack * Chan) :=
  match chanBuf c with
  | [] => None
  | x :: rest => Some (x, mkChan (chanCap c) rest)
  end.

(** The state one call of [pipeline] works on: the pack its argument
    points to, the world, the trace so far, and the recycle channel the
    closure captured. *)
Record St := mkSt {
  st_pack : PipelinePack;
  st_world : World;
  st_trace : list Effect;
  st_chan : Chan
}.

(** How a statement ends: it falls through with a value, it executes
    [return], it panics, or the goroutine waits on a channel for good. *)
Inductive Ctl (A : Type) :=
| Next (a : A)
| Returned
| Panicking (reason : string)
| Parked.
Arguments Next {A} a.
Arguments Returned {A}.
Arguments Panicking {A} reason.
Arguments Parked {A}.

Definition Go (A : Type) : Type := St → Ctl A * St.

#[export] Instance Go_ret : MRet Go := λ A a s, (Next a, s).
#[export] Instance Go_bind : MBind Go := λ A B k m s,
  match m s with
  | (Next a, s') => k a s'
  | (Returned, s') => (Returned, s')
  | (Panicking reason, s') => (Panicking reason, s')
  | (Parked, s') => (Parked, s')
  end.

Definition return_ {A} : Go A := λ s, (Returned, s).
Definition panic {A} (reason : string) : Go A := λ s, (Panicking reason, s).
Definition getPack : Go PipelinePack := λ s, (Next (st_pack s), s).
Definition modifyPack (f : PipelinePack → PipelinePack) : Go unit := λ s,
  (Next tt, mkSt (f (st_pack s)) (st_world s) (st_trace s) (st_chan s)).
Definition emit (e : Effect) : Go unit := λ s,
  (Next tt, mkSt (st_pack s) (st_world s) (st_trace s ++ [e]) (st_chan s)).
Definition logPrintf (line : string) : Go unit := emit (Log line).

(** A call of a function of this file: its [return] ends the call, not the
    caller. *)
Definition call (f : Go unit) : Go unit := λ s,
  match f s with
  | (Returned, s') => (Next tt, s')
  | r => r
  end.

(** [defer]: the deferred function runs when the body has ended, by
    falling through, by [return] or by a panic, and the body's way of
    ending stands unless the deferred function itself panics or waits. *)
Definition defer {A} (deferred : Go unit) (body : Go A) : Go A := λ s,
  match body s with
  | (Parked, s1) => (Parked, s1)
  | (r, s1) =>
      match deferred s1 with
      | (Panicking reason, s2) => (Panicking reason, s2)
      | (Parked, s2) => (Parked, s2)
      | (_, s2) => (r, s2)
      end
  end.

Definition callDecode (decoderName : string) (decoder : DecoderT) : Go (option string) := λ s,
  let '(pack, world, err) := Decode decoder (st_pack s) (st_world s) in
  (Next err, mkSt pack world (st_trace s ++ [CallDecode decoderName err]) (st_chan s)).

Definition callFilterMsg (filterName : string) (filter : FilterT) : Go unit := λ s,
  let '(pack, world) := FilterMsg filter (st_pack s) (st_world s) in
  (Next tt, mkSt pack world (st_trace s ++ [CallFilterMsg filterName pack]) (st_chan s)).

Definition callDeliver (outputName : string) (output : OutputT) : Go unit := λ s,
  (Next tt, mkSt (st_pack s) (Deliver output (st_pack s) (st_world s))
              (st_trace s ++ [CallDeliver outputName]) (st_chan s)).

(** A method call through a nil interface value. *)
Definition nil_dereference : string :=
  "runtime error: invalid memory address or nil pointer dereference".

(** ** NewPipelinePack *)

(** [for name, wrapper := range wrappers { instances[name] = wrapper.Create() }]:
    the body of [InitDecoders], [InitFilters] and [InitOutputs].  The type
    assertion on the created plugin holds by the wrapper's type. *)
Definition createAll {T : Type} (wrappers : gmap string (PluginWrapper T))
    (instances : gmap string T) (world : World) : gmap string T * World :=
  foldl (λ acc entry,
           let '(inst, world) := Create (snd entry) (snd acc) in
           (<[fst entry := inst]> (fst acc), world))
        (instances, world) (rangeMap wrappers).

Definition InitDecoders (config : PipelineConfig) (self : PipelinePack)
    (world : World) : PipelinePack * World :=
  let '(decoders, world) := createAll (cfgDecoders config) (Decoders self) world in
  (set_Decoders decoders self, world).

Definition InitFilters (config : PipelineConfig) (self : PipelinePack)
    (world : World) : PipelinePack * World :=
  let '(filters, world) := createAll (cfgFilters config) (Filters self) world in
  (set_Filters filters self, world).

Definition InitOutputs (config : PipelineConfig) (self : PipelinePack)
    (world : World) : PipelinePack * World :=
  let '(outputs, world) := createAll (cfgOutputs config) (Outputs self) world in
  (set_Outputs outputs self, world).

Definition NewPipelinePack (config : PipelineConfig) (world : World)
    : PipelinePack * World :=
  let msgBytes := make_bytes (Z.to_nat 65536) in
  let message := emptyMessage in
  let pack :=
    {| MsgBytes := msgBytes;
       Message := message;
       Config := config;
       Decoder := DefaultDecoder config;
       Decoders := ∅;
       Decoded := false;
       Blocked := false;
       Filters := ∅;
       FilterChain := DefaultFilterChain config;
       ChainCount := 0;
       Outputs := ∅;
       OutputNames := ∅ |} in
  let '(pack, world) := InitDecoders config pack world in
  let '(pack, world) := InitFilters config pack world in
  InitOutputs config pack world.

(** ** PipelinePack.Zero *)

(** [for outputName, _ := range self.OutputNames { delete(...) }]:
    deleting the entry just produced is allowed during a range, and the
    keys still to come are those of the map the loop started from. *)
Definition clearOutputNames (names : gmap string bool) : gmap string bool :=
  foldl (λ m entry, delete (fst entry) m) names (rangeMap names).

Definition Zero (self : PipelinePack) : PipelinePack :=
  let self := set_MsgBytes (reslice_to_cap (MsgBytes self)) self in
  let self := set_Decoder (DefaultDecoder (Config self)) self in
  let self := set_Decoded false self in
  let self := set_Blocked false self in
  let self := set_FilterChain (DefaultFilterChain (Config self)) self in
  set_OutputNames (clearOutputNames (OutputNames self)) self.

(** ** filterProcessor *)

(** Lines 123 to 128: the chain name this cycle uses, and the write to the
    pack's [FilterChain] when the lookup found one. *)
Definition resolveChainName (config : PipelineConfig) : Go string :=
  pipelinePack ← getPack;
  let '(filterChainName, ok) := LocateChain (Lookup config) (Message pipelinePack) in
  if (ok : bool) then
    modifyPack (set_FilterChain filterChainName);;
    mret filterChainName
  else
    mret (FilterChain pipelinePack).

(** Lines 134 to 136. *)
Definition selectOutputs (outputs : list string) (pack : PipelinePack) : PipelinePack :=
  foldl (λ pack outputName,
           set_OutputNames (<[outputName := true]> (OutputNames pack)) pack)
        pack outputs.

(** Lines 137 to 143.  The lookup of the filter has no presence check: for
    a name that is not a key of [Filters] the map gives the nil interface
    value, and the method call through it panics. *)
Fixpoint filterLoop (filterNames : list string) : Go unit :=
  match filterNames with
  | [] => mret tt
  | filterName :: rest =>
      pipelinePack ← getPack;
      match Filters pipelinePack !! filterName with
      | None =>
          emit (CallFilterMsgNil filterName);;
          panic nil_dereference
      | Some filter =>
          callFilterMsg filterName filter;;
          pipelinePack ← getPack;
          if Blocked pipelinePack then return_ else filterLoop rest
      end
  end.

(** Lines 129 to 143: the chain named [filterChainName] is looked up and
    run. *)
Definition runChain (config : PipelineConfig) (filterChainName : string) : Go unit :=
  match FilterChains config !! filterChainName with
  | None =>
      logPrintf ("Filter chain doesn't exist: " +:+ filterChainName);;
      return_
  | Some filterChain =>
      modifyPack (selectOutputs (chainOutputs filterChain));;
      filterLoop (chainFilters filterChain)
  end.

Definition filterProcessor : Go unit :=
  modifyPack (set_OutputNames ∅);;
  pipelinePack ← getPack;
  let config := Config pipelinePack in
  filterChainName ← resolveChainName config;
  runChain config filterChainName.

(** ** BroadcastEvent *)

(** [for _, wrapper = range wrappers { if wrapper.global != nil { ... } }] *)
Definition notifyGlobals {T : Type} (kind : PluginKind)
    (wrappers : gmap string (PluginWrapper T)) (eventType : string)
    (acc : World * list Effect) : World * list Effect :=
  foldl (λ acc entry,
           match global (snd entry) with
           | Some g =>
               (Event g eventType (fst acc),
                snd acc ++ [CallEvent kind (fst entry) eventType])
           | None => acc
           end)
        acc (rangeMap wrappers).

Definition BroadcastEvent (config : PipelineConfig) (eventType : string)
    (world : World) : World * list Effect :=
  let '(world, err) := notifyPost eventType world in
  let trace :=
    match err with
    | Some err => [CallPost eventType (Some err);
                   Log ("Error sending " +:+ err +:+ " event:")]
    | None => [CallPost eventType None]
    end in
  let acc := notifyGlobals KFilter (cfgFilters config) eventType (world, trace) in
  notifyGlobals KOutput (cfgOutputs config) eventType acc.

(** ** Run: the pipeline closure *)

(** [recycleChan <- pack] *)
Definition sendRecycle : Go unit := λ s,
  match chan_send (st_chan s) (st_pack s) with
  | Some c =>
      (Next tt, mkSt (st_pack s) (st_world s) (st_trace s ++ [SendRecycle]) c)
  | None => (Parked, s)
  end.

(** The deferred function of [pipeline]. *)
Definition recycle : Go unit :=
  modifyPack Zero;;
  emit CallZero;;
  sendRecycle.

(** Lines 182 to 196. *)
Definition decodeIfNecessary : Go unit :=
  pack ← getPack;
  if negb (Decoded pack) then
    let decoderName := Decoder pack in
    match Decoders pack !! decoderName with
    | None =>
        logPrintf ("Decoder doesn't exist: " +:+ decoderName +:+ newline);;
        return_
    | Some decoder =>
        err ← callDecode decoderName decoder;
        match err with
        | Some err =>
            logPrintf ("Error decoding message (" +:+ decoderName +:+ "): " +:+ err);;
            return_
        | None => modifyPack (set_Decoded true)
        end
    end
  else mret tt.

(** Lines 205 to 215, over the entries the [range] produces.  [Deliver]
    does not change the pack, so the entries and the pack's [Outputs] are
    those the loop started with. *)
Fixpoint deliverLoop (entries : list (string * bool)) : Go unit :=
  match entries with
  | [] => mret tt
  | (outputName, use) :: rest =>
      (if negb use then mret tt
       else
         pack ← getPack;
         match Outputs pack !! outputName with
         | None => logPrintf ("Output doesn't exist: " +:+ outputName +:+ newline)
         | Some output => callDeliver outputName output
         end);;
      deliverLoop rest
  end.

Definition pipeline_body : Go unit :=
  decodeIfNecessary;;
  call filterProcessor;;
  pack ← getPack;
  (if Blocked pack then return_ else mret tt);;
  pack ← getPack;
  deliverLoop (rangeMap (OutputNames pack)).

Definition pipeline : Go unit := call (defer recycle pipeline_body).

(** One cycle: [pipeline(pack)] from an empty trace. *)
Definition runPipeline (pack : PipelinePack) (world : World) (recycleChan : Chan)
    : Ctl unit * St :=
  pipeline (mkSt pack world [] recycleChan).

(** ** Run: the pool *)

(** [for i := 0; i < n; i++ { recycleChan <- NewPipelinePack(config) }] *)
Fixpoint fillPool (n : nat) (config : PipelineConfig) (recycleChan : Chan)
    (world : World) : option (Chan * World) :=
  match n with
  | O => Some (recycleChan, world)
  | S n =>
      let '(pack, world) := NewPipelinePack config world in
      recycleChan ← chan_send recycleChan pack;
      fillPool n config recycleChan world
  end.

(** Lines 169 and 219 to 221: [None] when [make] panics or a send of the
    fill would wait. *)
Definition newPool (config : PipelineConfig) (world : World) : option (Chan * World) :=
  recycleChan ← make_chan (int_wrap (PoolSize config + 1));
  fillPool (Z.to_nat (PoolSize config)) config recycleChan world.

(** The pool and the packs that inputs hold. *)
Record Pool := mkPool {
  recycleChan : Chan;
  outstanding : list PipelinePack;
  poolWorld : World
}.

(** Modelled from the spec: the input runners are outside this file.  An
    input "is responsible for acquiring a unit from the pool, populating
    its raw buffer, and submitting it to the Pipeline Stage Executor", and
    "Acquire on an empty pool blocks the caller until a unit is released".
    [Acquire] is a receive on the recycle channel; [Submit i fill] is the
    holder of the [i]-th outstanding pack filling it and calling
    [pipeline] on it, whose deferred function is the release. *)
Inductive PoolOp :=
| Acquire
| Submit (i : nat) (fill : PipelinePack → PipelinePack).

Inductive StepResult :=
| Stepped (pool : Pool)
| Suspends
| Crashes
| NoSuchPack.

Definition pool_step (op : PoolOp) (pool : Pool) : StepResult :=
  match op with
  | Acquire =>
      match chan_recv (recycleChan pool) with
      | Some (pack, c) =>
          Stepped (mkPool c (outstanding pool ++ [pack]) (poolWorld pool))
      | None => Suspends
      end
  | Submit i fill =>
      match outstanding pool !! i with
      | None => NoSuchPack
      | Some pack =>
          match runPipeline (fill pack) (poolWorld pool) (recycleChan pool) with
          | (Parked, _) => Suspends
          | (Panicking _, _) => Crashes
          | (_, s) => Stepped (mkPool (st_chan s) (delete i (outstanding pool)) (st_world s))
          end
      end
  end.

(** A schedule of steps, stopping at the first that cannot be taken. *)
Fixpoint pool_run (ops : list PoolOp) (pool : Pool) : option Pool :=
  match ops with
  | [] => Some pool
  | op :: ops =>
      match pool_step op pool with
      | Stepped pool => pool_run ops pool
      | _ => None
      end
  end.

Definition startPool (config : PipelineConfig) (world : World) : option Pool :=
  match newPool config world with
  | Some (c, world) => Some (mkPool c [] world)
  | None => None
  end.

End Model.

Arguments Create {_ T} _ _.
Arguments global {_ T} _.
Arguments mkWrapper {_ T} _ _.
Arguments Next {A} a.
Arguments Returned {A}.
Arguments Panicking {A} reason.
Arguments Parked {A}.

(** ** Reading a trace *)

Section Traces.

Context `{Plugins}.

Definition isFilterCall (e : Effect) : bool :=
  match e with
  | CallFilterMsg _ _ | CallFilterMsgNil _ => true
  | _ => false
  end.

Definition isDeliverCall (e : Effect) : bool :=
  match e with CallDeliver _ => true | _ => false end.

Definition isDeliverTo (outputName : string) (e : Effect) : bool :=
  match e with
  | CallDeliver name => bool_decide (name = outputName)
  | _ => false
  end.

Definition isLogLine (line : string) (e : Effect) : bool :=
  match e with
  | Log l => bool_decide (l = line)
  | _ => false
  end.

Definition isZeroCall (e : Effect) : bool :=
  match e with CallZero => true | _ => false end.

Definition isRecycleSend (e : Effect) : bool :=
  match e with SendRecycle => true | _ => false end.

Definition isEventCall (kind : PluginKind) (pluginName eventType : string)
    (e : Effect) : bool :=
  match e with
  | CallEvent k name ev =>
      bool_decide (k = kind) && bool_decide (name = pluginName)
      && bool_decide (ev = eventType)
  | _ => false
  end.

(** The effects of the decode step and of the router: log lines and calls
    of [Decode]. *)
Definition isPreambleEffect (e : Effect) : bool :=
  match e with Log _ | CallDecode _ _ => true | _ => false end.

Definition isDecodeCall (e : Effect) : bool :=
  match e with CallDecode _ _ => true | _ => false end.

(** The effects of the delivery loop: log lines and calls of [Deliver]. *)
Definition isDeliveryEffect (e : Effect) : bool :=
  match e with Log _ | CallDeliver _ => true | _ => false end.

(** The filter names a trace calls [FilterMsg] under, in order. *)
Definition filterNamesOf (trace : list Effect) : list string :=
  omap (λ e, match e with
             | CallFilterMsg name _ | CallFilterMsgNil name => Some name
             | _ => None
             end) trace.

(** How many effects of a trace satisfy [f]. *)
Definition countEffects (f : Effect → bool) (trace : list Effect) : nat :=
  length (List.filter f trace).

(** The chain name a cycle uses for a pack: what the lookup found, and
    otherwise the name the pack carries. *)
Definition chainNameFor (pack : PipelinePack) : string :=
  let '(name, found) := LocateChain (Lookup (Config pack)) (Message pack) in
  if (found : bool) then name else FilterChain pack.

(** The pack as lines 121 to 128 leave it: the output names cleared, and
    the chain field overwritten when the lookup found a name. *)
Definition routed (pack : PipelinePack) : PipelinePack :=
  let '(name, found) := LocateChain (Lookup (Config pack)) (Message pack) in
  if (found : bool)
  then set_FilterChain name (set_OutputNames ∅ pack)
  else set_OutputNames ∅ pack.

(** What the delivery loop does for one entry of its range, as a trace. *)
Definition deliveryEffect (outputs : gmap string OutputT)
    (entry : string * bool) : list Effect :=
  if negb (snd entry) then []
  else match outputs !! fst entry with
       | None => [Log ("Output doesn't exist: " +:+ fst entry +:+ newline)]
       | Some _ => [CallDeliver (fst entry)]
       end.

(** The world after the deliveries of a range. *)
Definition deliveryWorld (pack : PipelinePack) (entries : list (string * bool))
    (world : World) : World :=
  foldl (λ world entry,
           if negb (snd entry) then world
           else match Outputs pack !! fst entry with
                | None => world
                | Some output => Deliver output pack world
                end)
        world entries.

(** What [BroadcastEvent] does for one wrapper of its range, as a trace. *)
Definition globalEffect {T : Type} (kind : PluginKind) (eventType : string)
    (entry : string * PluginWrapper T) : list Effect :=
  match global (snd entry) with
  | Some _ => [CallEvent kind (fst entry) eventType]
  | None => []
  end.

(** The units of the pool are in the channel or with an input, and the
    channel has a slot more than there are units. *)
Definition poolInvariant (size : nat) (pool : Pool) : Prop :=
  chanCap (recycleChan pool) = S size ∧
  length (outstanding pool) + length (chanBuf (recycleChan pool)) = size.


(** The output the delivery loop hands the pack to at one entry of its
    range: the entry is selected and its name is a key of the pack's
    [Outputs]. *)
Definition selectedOutput (pack : PipelinePack) (entry : string * bool) :
    option OutputT :=
  if snd entry then Outputs pack !! fst entry else None.

(** The global [BroadcastEvent] notifies at one entry of its range. *)
Definition globalOf {T : Type} (entry : string * PluginWrapper T) : option GlobalT :=
  global (snd entry).

End Traces.

(** ** A concrete installation

    A small configuration to run the model on: a decoder that reads the raw
    bytes as text and one that always fails, a filter that blocks every
    message and one that does nothing, one output, and a chain lookup that
    takes a non-empty message for the name of its chain.  The world is the
    journal of what outputs and shared plugin states received. *)
Module Scenario.

Inductive decoder := TextDecoder | FailingDecoder.
Inductive filter := Noop | BlockAll.
Inductive output := Sink (tag : string).
Inductive shared := Shared (tag : string).

Definition types : PluginTypes :=
  {| Msg := string; World := list string; DecoderT := decoder;
     FilterT := filter; OutputT := output; GlobalT := shared |}.

#[local] Existing Instance types.

Definition rawText (b : Slice) : string :=
  String.string_of_list_byte (take (len b) (array b)).

Definition set_Message (v : string) (p : PipelinePack) : PipelinePack :=
  mkPack (MsgBytes p) v (Config p) (Decoder p) (Decoders p) (Filters p)
    (Outputs p) (Decoded p) (Blocked p) (FilterChain p) (ChainCount p)
    (OutputNames p).

(** No observer is registered on the topic, so every post fails. *)
Definition plugins : Plugins :=
  {| emptyMessage := "";
     Decode := λ d pack world,
       match d with
       | TextDecoder => (set_Message (rawText (MsgBytes pack)) pack, world, None)
       | FailingDecoder => (pack, world, Some "unexpected end of input")
       end;
     FilterMsg := λ f pack world,
       match f with
       | Noop => (pack, world)
       | BlockAll => (set_Blocked true pack, world)
       end;
     Deliver := λ o pack world,
       match o with Sink tag => world ++ [tag +:+ " <- " +:+ Message pack] end;
     Event := λ g eventType world,
       match g with Shared tag => world ++ [tag +:+ " ! " +:+ eventType] end;
     notifyPost := λ eventType world, (world, Some "no observers") |}.

#[local] Existing Instance plugins.
#[local] Existing Instance rangeSorted.

Definition wrapper {T : Type} (inst : T) (g : option shared) : PluginWrapper T :=
  mkWrapper (λ world, (inst, world)) g.

Definition locate : @MessageLookup types :=
  @mkLookup types (λ m : string, (m, negb (bool_decide (m = "")))).

Definition config : PipelineConfig :=
  {| DefaultDecoder := "text";
     DefaultFilterChain := "default";
     PoolSize := 2;
     cfgDecoders := list_to_map
       [("text", wrapper TextDecoder None);
        ("failing", wrapper FailingDecoder None)];
     cfgFilters := list_to_map
       [("block-all", wrapper BlockAll (Some (Shared "block-all")));
        ("noop", wrapper Noop None)];
     cfgOutputs := list_to_map
       [("out1", wrapper (Sink "out1") (Some (Shared "out1")))];
     FilterChains := list_to_map
       [("default", mkChain ["out1"] []);
        ("blocked", mkChain ["out1"] ["block-all"; "noop"]);
        ("broken", mkChain ["out1"] ["ghost"]);
        ("late", mkChain ["out1"] ["noop"; "ghost"]);
        ("lossy", mkChain ["out2"; "out1"] ["noop"])];
     Lookup := locate |}.

(** A pack as the pool hands it out, here with a buffer of 16 bytes to
    keep the runs small, and as an input submits it after writing
    [payload] to its buffer. *)
Definition freshPack : PipelinePack :=
  set_MsgBytes (make_bytes 16) (fst (NewPipelinePack config [])).

Definition received (payload : string) : PipelinePack :=
  let bytes := String.list_byte_of_string payload in
  set_MsgBytes
    (mkSlice (bytes ++ drop (length bytes) (array (MsgBytes freshPack)))
             (length bytes))
    freshPack.

Definition emptyChan : Chan := mkChan 3 [].

(** The cycle of a pack that carries [payload], and the states it goes
    through: after the decode step, after the router has selected the
    chain and its outputs, and after the call of [filterProcessor]. *)
Definition cycleOf (payload : string) : Ctl unit * St :=
  runPipeline (received payload) [] emptyChan.

Definition afterDecode (payload : string) : St :=
  (decodeIfNecessary (mkSt (received payload) [] [] emptyChan)).2.

Definition afterRouting (payload : string) (chain : FilterChainDef) : St :=
  let s1 := afterDecode payload in
  mkSt (selectOutputs (chainOutputs chain) (routed (st_pack s1)))
    (st_world s1) (st_trace s1) (st_chan s1).

Definition afterFilters (payload : string) : St :=
  (call filterProcessor (afterDecode payload)).2.

(** The pack as the first filter call of the cycle left it. *)
Definition firstFilterResult (payload : string) : PipelinePack :=
  match List.filter isFilterCall (st_trace (cycleOf payload).2) with
  | CallFilterMsg _ after :: _ => after
  | _ => freshPack
  end.

(** A pack in the middle of a cycle: decoded, blocked, with an output
    selected. *)
Definition usedPack : PipelinePack :=
  set_OutputNames {["out1" := true]}
    (set_Blocked true (set_Decoded true (set_Message "blocked" (received "blocked")))).

End Scenario.

(** ** Run: the signal loop *)

Section SignalLoop.

Context `{Plugins} `{!MapRange}.

(** [syscall.SIGHUP] and [syscall.SIGINT], as numbers. *)
Definition SIGHUP : Z := 1.
Definition SIGINT : Z := 2.

(** How the [sigListener] loop stands: it left the loop on [SIGINT], the
    signals behind it unread, or it has read every signal there was and
    waits on the signal channel. *)
Inductive Listener :=
| Broke (unread : list Z)
| Waiting.

(** Lines 240 to 250, over the signals that arrive on [sigChan] in their
    order: [SIGHUP] broadcasts [RELOAD] and the loop goes on, [SIGINT]
    broadcasts [STOP] and breaks, and for any other signal the switch has
    no case. *)
Fixpoint sigListener (config : PipelineConfig) (sigs : list Z)
    (acc : World * list Effect) : Listener * (World * list Effect) :=
  match sigs with
  | [] => (Waiting, acc)
  | sig :: rest =>
      if (sig =? SIGHUP)%Z then
        let '(world, trace) := BroadcastEvent config RELOAD (fst acc) in
        sigListener config rest (world, snd acc ++ trace)
      else if (sig =? SIGINT)%Z then
        let '(world, trace) := BroadcastEvent config STOP (fst acc) in
        (Broke rest, (world, snd acc ++ trace))
      else sigListener config rest acc
  end.

(** The posts on the topic, by event type. *)
Definition isPostOf (eventType : string) (e : Effect) : bool :=
  match e with
  | CallPost ev _ => bool_decide (ev = eventType)
  | _ => false
  end.

(** The effects of the router and of the filter loop: log lines and calls
    of [FilterMsg]. *)
Definition isRouteEffect (e : Effect) : bool :=
  match e with
  | Log _ | CallFilterMsg _ _ | CallFilterMsgNil _ => true
  | _ => false
  end.

(** A pack in the state [Zero] leaves one in. *)
Definition isReset (pack : PipelinePack) : Prop :=
  Decoded pack = false ∧ Blocked pack = false ∧
  Decoder pack = DefaultDecoder (Config pack) ∧
  FilterChain pack = DefaultFilterChain (Config pack) ∧
  OutputNames pack = ∅ ∧
  len (MsgBytes pack) = cap (MsgBytes pack).

End SignalLoop.

(** More of the concrete installation: the configuration with another
    pool size. *)
Module Scenario2.

Import Scenario.
#[local] Existing Instance types.
#[local] Existing Instance plugins.
#[local] Existing Instance rangeSorted.

(** A configuration of size [n]. *)
Definition sized (n : Z) : PipelineConfig :=
  mkConfig (DefaultDecoder config) (DefaultFilterChain config) n
    (cfgDecoders config) (cfgFilters config) (cfgOutputs config)
    (FilterChains config) (Lookup config).

End Scenario2.

(** Unfolds the statements of the [Go] monad. *)
Ltac go_unfold :=
  unfold mbind, Go_bind, mret, Go_ret, getPack, modifyPack, logPrintf, emit,
    return_, panic in *.

(** * Properties *)

Section Properties.

Context `{Plugins} `{!MapRange}.
Hypothesis rangeMap_ok : RangeMapOk _.

(** ** Zero *)

Lemma foldl_delete_lookup (l : list (string * bool)) (m : gmap string bool) k :
  foldl (λ m entry, delete (fst entry) m) m l !! k =
  if decide (k ∈ l.*1) then None else m !! k.
Proof.
  revert m. induction l as [|[k' v] l IH]; intros m.
  - destruct (decide (k ∈ ([] : list (string * bool)).*1)) as [Hin|_]; [|done].
    by apply elem_of_nil in Hin.
  - cbn [foldl fst]. rewrite IH.
    destruct (decide (k ∈ l.*1)) as [Hin|Hin];
      destruct (decide (k ∈ ((k', v) :: l).*1)) as [Hin'|Hin']; try done.
    + exfalso. apply Hin'. rewrite fmap_cons. apply elem_of_cons. by right.
    + rewrite fmap_cons in Hin'. apply elem_of_cons in Hin' as [->|?]; [|done].
      apply lookup_delete_eq.
    + apply lookup_delete_ne. intros ->. apply Hin'.
      rewrite fmap_cons. apply elem_of_cons. by left.
Qed.

Lemma clearOutputNames_empty (names : gmap string bool) :
  clearOutputNames names = ∅.
Proof.
  apply map_eq. intros k. unfold clearOutputNames.
  rewrite foldl_delete_lookup, lookup_empty.
  case_decide as Hin; [done|].
  destruct (names !! k) as [v|] eqn:Hk; [|done].
  exfalso. apply Hin. apply list_elem_of_fmap. exists (k, v). split; [done|].
  rewrite (rangeMap_ok _ names). by apply elem_of_map_to_list.
Qed.

(** C3: whatever state a pack is in, after [Zero] its [Decoded] and
    [Blocked] flags are false, its decoder name is the configured default
    decoder, its filter chain name is the configured default chain, its
    set of output names is empty, and the length of its raw buffer is the
    buffer's capacity. *)
Theorem Zero_resets (self : PipelinePack) :
  let z := Zero self in
  Decoded z = false ∧ Blocked z = false ∧
  Decoder z = DefaultDecoder (Config self) ∧
  FilterChain z = DefaultFilterChain (Config self) ∧
  OutputNames z = ∅ ∧
  len (MsgBytes z) = cap (MsgBytes z) ∧
  cap (MsgBytes z) = cap (MsgBytes self).
Proof.
  simpl. repeat split. apply clearOutputNames_empty.
Qed.

(** ** filterProcessor: the chain name *)

Lemma resolveChainName_eq (config : PipelineConfig) (s : St) :
  resolveChainName config s =
  let '(name, found) := LocateChain (Lookup config) (Message (st_pack s)) in
  if (found : bool)
  then (Next name,
        mkSt (set_FilterChain name (st_pack s)) (st_world s) (st_trace s) (st_chan s))
  else (Next (FilterChain (st_pack s)), s).
Proof.
  unfold resolveChainName. go_unfold. simpl.
  destruct (LocateChain _ _) as [name [|]]; reflexivity.
Qed.

Lemma filterProcessor_eq (s : St) :
  let pack := set_OutputNames ∅ (st_pack s) in
  let config := Config (st_pack s) in
  let '(name, found) := LocateChain (Lookup config) (Message (st_pack s)) in
  filterProcessor s =
  runChain config (if (found : bool) then name else FilterChain (st_pack s))
    (mkSt (if (found : bool) then set_FilterChain name pack else pack)
       (st_world s) (st_trace s) (st_chan s)).
Proof.
  unfold filterProcessor, resolveChainName. go_unfold. simpl.
  destruct (LocateChain _ _) as [name [|]]; reflexivity.
Qed.

(** C4: when the chain lookup reports no match, the chain name the cycle
    uses is the one the pack carries and the pack's chain field is left as
    it is; when it reports a match, the matched name is written to the
    pack's chain field and is the name the chain is looked up and run
    under. *)
Theorem routing_fallback (s : St) :
  let pack := st_pack s in
  let config := Config pack in
  let cleared :=
    mkSt (set_OutputNames ∅ pack) (st_world s) (st_trace s) (st_chan s) in
  let matched name :=
    mkSt (set_FilterChain name (set_OutputNames ∅ pack))
      (st_world s) (st_trace s) (st_chan s) in
  match LocateChain (Lookup config) (Message pack) with
  | (_, false) =>
      resolveChainName config cleared = (Next (FilterChain pack), cleared) ∧
      FilterChain (st_pack cleared) = FilterChain pack ∧
      chainNameFor pack = FilterChain pack ∧
      filterProcessor s = runChain config (FilterChain pack) cleared
  | (name, true) =>
      resolveChainName config cleared = (Next name, matched name) ∧
      FilterChain (st_pack (matched name)) = name ∧
      chainNameFor pack = name ∧
      filterProcessor s = runChain config name (matched name)
  end.
Proof.
  intros pack config cleared matched.
  pose proof (filterProcessor_eq s) as Hfp.
  pose proof (resolveChainName_eq config cleared) as Hres.
  unfold chainNameFor. simpl in *. fold pack config in Hfp |- *.
  destruct (LocateChain (Lookup config) (Message pack)) as [name [|]];
    repeat split; assumption.
Qed.

(** ** filterProcessor: the filter loop *)

Lemma filterLoop_missing (filterName : string) (rest : list string) (s : St) :
  Filters (st_pack s) !! filterName = None →
  filterLoop (filterName :: rest) s =
  (Panicking nil_dereference,
   mkSt (st_pack s) (st_world s) (st_trace s ++ [CallFilterMsgNil filterName])
     (st_chan s)).
Proof.
  intros Hnone. cbn [filterLoop]. go_unfold. simpl. by rewrite Hnone.
Qed.

Lemma filterLoop_present (filterName : string) (rest : list string) (s : St) filter :
  Filters (st_pack s) !! filterName = Some filter →
  filterLoop (filterName :: rest) s =
  let '(pack, world) := FilterMsg filter (st_pack s) (st_world s) in
  let s1 := mkSt pack world (st_trace s ++ [CallFilterMsg filterName pack]) (st_chan s) in
  if Blocked pack then (Returned, s1) else filterLoop rest s1.
Proof.
  intros Hsome. cbn [filterLoop]. go_unfold. unfold callFilterMsg. simpl.
  rewrite Hsome. destruct (FilterMsg _ _ _) as [pack world]. simpl.
  by destruct (Blocked pack).
Qed.

Lemma filterNamesOf_call (name : string) (after : PipelinePack) (trace : list Effect) :
  filterNamesOf (CallFilterMsg name after :: trace) = name :: filterNamesOf trace.
Proof. reflexivity. Qed.

(** What the filter loop adds to the trace: calls of [FilterMsg] only,
    under the first names of the list in their order, and a call that
    leaves the pack blocked is the last one. *)
Lemma filterLoop_spec (filterNames : list string) (s : St) :
  ∃ calls,
    st_trace (filterLoop filterNames s).2 = st_trace s ++ calls ∧
    st_chan (filterLoop filterNames s).2 = st_chan s ∧
    Forall (λ e, isFilterCall e = true) calls ∧
    filterNamesOf calls = take (length calls) filterNames ∧
    (∀ i name after,
        calls !! i = Some (CallFilterMsg name after) →
        filterNames !! i = Some name) ∧
    (∀ i name after,
        calls !! i = Some (CallFilterMsg name after) → Blocked after = true →
        length calls = S i ∧ st_pack (filterLoop filterNames s).2 = after) ∧
    ((filterLoop filterNames s).1 = Next tt ∨
     (filterLoop filterNames s).1 = Returned ∨
     (filterLoop filterNames s).1 = Panicking nil_dereference).
Proof.
  revert s. induction filterNames as [|filterName rest IH]; intros s.
  - exists []. simpl. rewrite app_nil_r. split_and!; auto.
    + intros i name after Hi. by rewrite lookup_nil in Hi.
    + intros i name after Hi. by rewrite lookup_nil in Hi.
  - destruct (Filters (st_pack s) !! filterName) as [filter|] eqn:Hf.
    + rewrite (filterLoop_present _ _ _ _ Hf).
      destruct (FilterMsg filter (st_pack s) (st_world s)) as [pack world].
      cbn beta iota zeta.
      destruct (Blocked pack) eqn:Hb.
      * exists [CallFilterMsg filterName pack]. simpl. split_and!; auto.
        -- intros i name after Hi.
           destruct i as [|i]; simpl in Hi; [|by rewrite lookup_nil in Hi].
           by inversion Hi.
        -- intros i name after Hi Hafter.
           destruct i as [|i]; simpl in Hi; [|by rewrite lookup_nil in Hi].
           by inversion Hi.
      * destruct (IH (mkSt pack world
                        (st_trace s ++ [CallFilterMsg filterName pack]) (st_chan s)))
          as (calls & Htr & Hch & Hall & Hnames & Hpos & Hblock & Hctl).
        exists (CallFilterMsg filterName pack :: calls).
        split; [|split; [|split; [|split; [|split; [|split]]]]].
        -- rewrite Htr. simpl. by rewrite <- app_assoc.
        -- by rewrite Hch.
        -- by constructor.
        -- rewrite filterNamesOf_call, Hnames. reflexivity.
        -- intros i name after Hi. destruct i as [|i]; simpl in Hi.
           ++ by inversion Hi.
           ++ simpl. by eapply Hpos.
        -- intros i name after Hi Hafter. destruct i as [|i].
           ++ simpl in Hi. inversion Hi; subst. congruence.
           ++ simpl in Hi. destruct (Hblock i name after Hi Hafter) as [Hlen Hpack].
              split; [simpl; by rewrite Hlen | done].
        -- done.
    + rewrite (filterLoop_missing _ _ _ Hf).
      exists [CallFilterMsgNil filterName]. simpl. split_and!; auto.
      * intros i name after Hi.
        destruct i as [|i]; simpl in Hi; [done | by rewrite lookup_nil in Hi].
      * intros i name after Hi.
        destruct i as [|i]; simpl in Hi; [done | by rewrite lookup_nil in Hi].
Qed.

Lemma filterProcessor_routed (s : St) :
  filterProcessor s =
  runChain (Config (st_pack s)) (chainNameFor (st_pack s))
    (mkSt (routed (st_pack s)) (st_world s) (st_trace s) (st_chan s)).
Proof.
  pose proof (filterProcessor_eq s) as Hfp. simpl in Hfp.
  unfold chainNameFor, routed.
  destruct (LocateChain _ _) as [name [|]]; exact Hfp.
Qed.

Lemma routed_OutputNames (pack : PipelinePack) : OutputNames (routed pack) = ∅.
Proof. unfold routed. by destruct (LocateChain _ _) as [name [|]]. Qed.

Lemma routed_Config (pack : PipelinePack) : Config (routed pack) = Config pack.
Proof. unfold routed. by destruct (LocateChain _ _) as [name [|]]. Qed.

Lemma runChain_absent (config : PipelineConfig) (name : string) (s : St) :
  FilterChains config !! name = None →
  runChain config name s =
  (Returned,
   mkSt (st_pack s) (st_world s)
     (st_trace s ++ [Log ("Filter chain doesn't exist: " +:+ name)]) (st_chan s)).
Proof. intros Hnone. unfold runChain. rewrite Hnone. reflexivity. Qed.

Lemma runChain_present (config : PipelineConfig) (name : string) (s : St) chain :
  FilterChains config !! name = Some chain →
  runChain config name s =
  filterLoop (chainFilters chain)
    (mkSt (selectOutputs (chainOutputs chain) (st_pack s)) (st_world s)
       (st_trace s) (st_chan s)).
Proof. intros Hsome. unfold runChain. rewrite Hsome. reflexivity. Qed.

(** ** The stages of pipeline *)

Lemma decodeIfNecessary_eq (s : St) :
  decodeIfNecessary s =
  if Decoded (st_pack s) then (Next tt, s)
  else
    let decoderName := Decoder (st_pack s) in
    match Decoders (st_pack s) !! decoderName with
    | None =>
        (Returned,
         mkSt (st_pack s) (st_world s)
           (st_trace s ++ [Log ("Decoder doesn't exist: " +:+ decoderName +:+ newline)])
           (st_chan s))
    | Some decoder =>
        match Decode decoder (st_pack s) (st_world s) with
        | (pack, world, Some err) =>
            (Returned,
             mkSt pack world
               (st_trace s ++
                  [CallDecode decoderName (Some err);
                   Log ("Error decoding message (" +:+ decoderName +:+ "): " +:+ err)])
               (st_chan s))
        | (pack, world, None) =>
            (Next tt,
             mkSt (set_Decoded true pack) world
               (st_trace s ++ [CallDecode decoderName None]) (st_chan s))
        end
    end.
Proof.
  unfold decodeIfNecessary. go_unfold. unfold callDecode. simpl.
  destruct (Decoded (st_pack s)); simpl; [by destruct s|].
  destruct (Decoders (st_pack s) !! Decoder (st_pack s)) as [decoder|]; [|done].
  destruct (Decode decoder (st_pack s) (st_world s)) as [[pack world] [err|]];
    simpl; [|done].
  by rewrite <- app_assoc.
Qed.

Lemma deliverLoop_eq (entries : list (string * bool)) (s : St) :
  deliverLoop entries s =
  (Next tt,
   mkSt (st_pack s) (deliveryWorld (st_pack s) entries (st_world s))
     (st_trace s ++ flat_map (deliveryEffect (Outputs (st_pack s))) entries)
     (st_chan s)).
Proof.
  revert s. induction entries as [|[outputName use] rest IH]; intros s.
  - simpl. rewrite app_nil_r. by destruct s.
  - cbn [deliverLoop]. go_unfold. unfold callDeliver.
    destruct use; cbn [negb].
    + cbn beta iota.
      destruct (Outputs (st_pack s) !! outputName) as [output|] eqn:Hout.
      * rewrite IH. cbn [st_pack st_world st_trace st_chan flat_map deliveryWorld foldl].
        unfold deliveryEffect. cbn [fst snd negb]. rewrite Hout.
        by rewrite <- app_assoc.
      * rewrite IH. cbn [st_pack st_world st_trace st_chan flat_map deliveryWorld foldl].
        unfold deliveryEffect. cbn [fst snd negb]. rewrite Hout.
        by rewrite <- app_assoc.
    + rewrite IH. reflexivity.
Qed.

Lemma recycle_eq (s : St) :
  recycle s =
  match chan_send (st_chan s) (Zero (st_pack s)) with
  | Some c =>
      (Next tt,
       mkSt (Zero (st_pack s)) (st_world s)
         (st_trace s ++ [CallZero; SendRecycle]) c)
  | None =>
      (Parked,
       mkSt (Zero (st_pack s)) (st_world s) (st_trace s ++ [CallZero]) (st_chan s))
  end.
Proof.
  unfold recycle, sendRecycle. go_unfold. simpl.
  destruct (chan_send _ _); [by rewrite <- app_assoc | done].
Qed.

Lemma pipeline_body_eq (s : St) :
  pipeline_body s =
  match decodeIfNecessary s with
  | (Next _, s1) =>
      match filterProcessor s1 with
      | (Next _, s2) | (Returned, s2) =>
          if Blocked (st_pack s2) then (Returned, s2)
          else deliverLoop (rangeMap (OutputNames (st_pack s2))) s2
      | (Panicking reason, s2) => (Panicking reason, s2)
      | (Parked, s2) => (Parked, s2)
      end
  | (Returned, s1) => (Returned, s1)
  | (Panicking reason, s1) => (Panicking reason, s1)
  | (Parked, s1) => (Parked, s1)
  end.
Proof.
  unfold pipeline_body, call. go_unfold.
  destruct (decodeIfNecessary s) as [[[]| | |] s1]; try reflexivity.
  destruct (filterProcessor s1) as [[[]| | |] s2]; try reflexivity;
    cbn [st_pack]; by destruct (Blocked (st_pack s2)).
Qed.

Lemma pipeline_eq (s : St) :
  pipeline s =
  match pipeline_body s with
  | (Parked, s1) => (Parked, s1)
  | (r, s1) =>
      match chan_send (st_chan s1) (Zero (st_pack s1)) with
      | Some c =>
          (match r with Returned => Next tt | r => r end,
           mkSt (Zero (st_pack s1)) (st_world s1)
             (st_trace s1 ++ [CallZero; SendRecycle]) c)
      | None =>
          (Parked,
           mkSt (Zero (st_pack s1)) (st_world s1) (st_trace s1 ++ [CallZero])
             (st_chan s1))
      end
  end.
Proof.
  unfold pipeline, call, defer.
  destruct (pipeline_body s) as [[[]| | |] s1]; try reflexivity;
    rewrite recycle_eq; by destruct (chan_send _ _).
Qed.

(** ** The shape of a cycle's trace *)

Lemma filter_all (f : Effect → bool) (l : list Effect) :
  Forall (λ e, f e = true) l → List.filter f l = l.
Proof.
  induction 1 as [|e l He _ IH]; simpl; [done|]. by rewrite He, IH.
Qed.

Lemma filter_none (f : Effect → bool) (l : list Effect) :
  Forall (λ e, f e = false) l → List.filter f l = [].
Proof.
  induction 1 as [|e l He _ IH]; simpl; [done|]. by rewrite He.
Qed.

(** Effects of one kind are no effects of a kind disjoint from it. *)
Lemma filter_disjoint (f g : Effect → bool) (l : list Effect) :
  Forall (λ e, g e = true) l → (∀ e, g e = true → f e = false) →
  List.filter f l = [].
Proof.
  intros Hall Hdisj. apply filter_none. eapply Forall_impl; [exact Hall | exact Hdisj].
Qed.

Lemma decode_frame (s : St) :
  ∃ tr,
    st_trace (decodeIfNecessary s).2 = st_trace s ++ tr ∧
    st_chan (decodeIfNecessary s).2 = st_chan s ∧
    Forall (λ e, isPreambleEffect e = true) tr ∧
    ((decodeIfNecessary s).1 = Next tt ∨ (decodeIfNecessary s).1 = Returned).
Proof.
  rewrite decodeIfNecessary_eq. destruct (Decoded (st_pack s)).
  - exists []. simpl. rewrite app_nil_r. auto.
  - cbn zeta.
    destruct (Decoders (st_pack s) !! Decoder (st_pack s)) as [decoder|].
    + destruct (Decode decoder (st_pack s) (st_world s)) as [[pack world] [err|]];
        eexists; simpl; split_and!; try reflexivity; auto.
    + eexists; simpl; split_and!; try reflexivity; auto.
Qed.

Lemma deliveryEffects_class (outputs : gmap string OutputT)
    (entries : list (string * bool)) :
  Forall (λ e, isDeliveryEffect e = true) (flat_map (deliveryEffect outputs) entries).
Proof.
  induction entries as [|[name use] rest IH]; simpl; [constructor|].
  apply Forall_app. split; [|done].
  unfold deliveryEffect. simpl. destruct use; simpl; [|constructor].
  destruct (outputs !! name); repeat constructor.
Qed.

(** The trace of the body of [pipeline]: the effects of the decode step
    and of the router's log, then the filter calls, then the deliveries.
    A filter call that leaves the pack blocked is the last filter call,
    no delivery follows it, and it is the call for the filter at its
    position in the chain the router resolved. *)
Lemma body_shape (s0 : St) :
  ∃ D F V,
    st_trace (pipeline_body s0).2 = st_trace s0 ++ D ++ F ++ V ∧
    st_chan (pipeline_body s0).2 = st_chan s0 ∧
    Forall (λ e, isPreambleEffect e = true) D ∧
    Forall (λ e, isFilterCall e = true) F ∧
    Forall (λ e, isDeliveryEffect e = true) V ∧
    ((pipeline_body s0).1 = Next tt ∨ (pipeline_body s0).1 = Returned ∨
     (pipeline_body s0).1 = Panicking nil_dereference) ∧
    (∀ i name after,
        F !! i = Some (CallFilterMsg name after) → Blocked after = true →
        length F = S i ∧ V = [] ∧
        ∃ s1 chain,
          decodeIfNecessary s0 = (Next tt, s1) ∧
          FilterChains (Config (st_pack s1)) !! chainNameFor (st_pack s1) = Some chain ∧
          chainFilters chain !! i = Some name).
Proof.
  rewrite pipeline_body_eq.
  destruct (decode_frame s0) as (D & HD & HDc & HDall & HDctl).
  destruct (decodeIfNecessary s0) as [r1 s1] eqn:Hdec. simpl in HD, HDc, HDctl.
  destruct HDctl as [-> | ->].
  2:{ exists D, [], []. simpl. rewrite app_nil_r. split_and!; auto.
      intros i name after Hi. by rewrite lookup_nil in Hi. }
  rewrite filterProcessor_routed.
  destruct (FilterChains (Config (st_pack s1)) !! chainNameFor (st_pack s1))
    as [chain|] eqn:Hchain.
  - rewrite (runChain_present _ _ _ _ Hchain).
    match goal with |- context [filterLoop ?names ?s] =>
      destruct (filterLoop_spec names s)
        as (F & HF & HFc & HFall & _ & HFpos & HFblock & HFctl);
      destruct (filterLoop names s) as [r2 s2] eqn:Hloop
    end.
    simpl in HF, HFc, HFctl, HFblock.
    assert (Hblocked : ∀ i name after,
               F !! i = Some (CallFilterMsg name after) → Blocked after = true →
               Blocked (st_pack s2) = true).
    { intros i name after Hi Hb. destruct (HFblock i name after Hi Hb) as [_ ->].
      done. }
    assert (Hrest : ∀ i name after,
               F !! i = Some (CallFilterMsg name after) → Blocked after = true →
               length F = S i ∧
               ∃ s1' chain',
                 (Next (), s1) = (Next (), s1') ∧
                 FilterChains (Config (st_pack s1')) !! chainNameFor (st_pack s1')
                   = Some chain' ∧
                 chainFilters chain' !! i = Some name).
    { intros i name after Hi Hb. split; [by apply (HFblock i name after)|].
      exists s1, chain. split_and!; [done | done |]. by eapply HFpos. }
    destruct HFctl as [-> | [-> | ->]].
    + destruct (Blocked (st_pack s2)) eqn:Hb2.
      * exists D, F, []. simpl. rewrite app_nil_r, HF, HFc, HD, HDc.
        rewrite <- app_assoc. split_and!; auto.
        intros i name after Hi Hb. destruct (Hrest i name after Hi Hb) as [? ?].
        done.
      * rewrite deliverLoop_eq. eexists D, F, _. simpl.
        rewrite HF, HFc, HD, HDc, <- !app_assoc.
        split_and!; [reflexivity | done | done | done
                     | apply deliveryEffects_class | auto |].
        intros i name after Hi Hb.
        discriminate (Hblocked i name after Hi Hb).
    + destruct (Blocked (st_pack s2)) eqn:Hb2.
      * exists D, F, []. simpl. rewrite app_nil_r, HF, HFc, HD, HDc.
        rewrite <- app_assoc. split_and!; auto.
        intros i name after Hi Hb. destruct (Hrest i name after Hi Hb) as [? ?].
        done.
      * rewrite deliverLoop_eq. eexists D, F, _. simpl.
        rewrite HF, HFc, HD, HDc, <- !app_assoc.
        split_and!; [reflexivity | done | done | done
                     | apply deliveryEffects_class | auto |].
        intros i name after Hi Hb.
        discriminate (Hblocked i name after Hi Hb).
    + exists D, F, []. simpl. rewrite app_nil_r, HF, HFc, HD, HDc.
      rewrite <- app_assoc. split_and!; auto.
      intros i name after Hi Hb. destruct (Hrest i name after Hi Hb) as [? ?].
      done.
  - rewrite (runChain_absent _ _ _ Hchain). cbn [st_pack].
    destruct (Blocked (routed (st_pack s1))).
    + exists (D ++ [Log ("Filter chain doesn't exist: " +:+ chainNameFor (st_pack s1))]),
        [], [].
      simpl. rewrite !app_nil_r, HD, HDc, <- app_assoc. split_and!; auto.
      * apply Forall_app. split; [done | by repeat constructor].
      * intros i name after Hi. by rewrite lookup_nil in Hi.
    + rewrite deliverLoop_eq.
      eexists (D ++ [Log ("Filter chain doesn't exist: " +:+ chainNameFor (st_pack s1))]),
        [], _.
      simpl. rewrite HD, HDc, <- !app_assoc.
      split_and!; [reflexivity | done | | done | apply deliveryEffects_class | auto |].
      * apply Forall_app. split; [done | by repeat constructor].
      * intros i name after Hi. by rewrite lookup_nil in Hi.
Qed.


Lemma runPipeline_eq (pack : PipelinePack) (world : World) (c : Chan) :
  let body := pipeline_body (mkSt pack world [] c) in
  runPipeline pack world c =
  match chan_send c (Zero (st_pack body.2)) with
  | Some c' =>
      (match body.1 with Returned => Next tt | r => r end,
       mkSt (Zero (st_pack body.2)) (st_world body.2)
         (st_trace body.2 ++ [CallZero; SendRecycle]) c')
  | None =>
      (Parked,
       mkSt (Zero (st_pack body.2)) (st_world body.2)
         (st_trace body.2 ++ [CallZero]) c)
  end.
Proof.
  intros body. unfold runPipeline. rewrite pipeline_eq. fold body.
  destruct (body_shape (mkSt pack world [] c)) as (D & F & V & _ & Hc & _ & _ & _ & Hctl & _).
  fold body in Hc, Hctl. simpl in Hc.
  destruct body as [r s1]. simpl in *. subst.
  destruct Hctl as [-> | [-> | ->]]; by destruct (chan_send _ _).
Qed.

(** C1: in the trace of a cycle, when the [i]-th call of [FilterMsg]
    leaves the pack with [Blocked] set, it is the call for the filter at
    position [i] of the chain the router resolved, the cycle makes [i + 1]
    filter calls in all, so none for a later position, and it makes no
    call of [Deliver]. *)
Theorem filter_short_circuit (pack : PipelinePack) (world : World) (c : Chan)
    (i : nat) (name : string) (after : PipelinePack) :
  let trace := st_trace (runPipeline pack world c).2 in
  List.filter isFilterCall trace !! i = Some (CallFilterMsg name after) →
  Blocked after = true →
  countEffects isFilterCall trace = S i ∧
  countEffects isDeliverCall trace = 0 ∧
  ∃ s1 chain,
    decodeIfNecessary (mkSt pack world [] c) = (Next tt, s1) ∧
    FilterChains (Config (st_pack s1)) !! chainNameFor (st_pack s1) = Some chain ∧
    chainFilters chain !! i = Some name.
Proof.
  intros trace.
  destruct (body_shape (mkSt pack world [] c))
    as (D & F & V & Htr & _ & HD & HF & HV & _ & Hblock).
  simpl in Htr.
  assert (Hshape : ∃ Z, trace = D ++ F ++ V ++ Z ∧
                        Forall (λ e, isZeroCall e || isRecycleSend e = true) Z).
  { unfold trace. rewrite runPipeline_eq. cbn zeta.
    destruct (chan_send _ _); simpl; rewrite Htr, <- !app_assoc;
      eexists; (split; [reflexivity | by repeat constructor]). }
  destruct Hshape as (Z & -> & HZ).
  assert (HfF : List.filter isFilterCall (D ++ F ++ V ++ Z) = F).
  { rewrite !List.filter_app.
    replace (List.filter isFilterCall D) with (@nil Effect)
      by (symmetry; apply (filter_disjoint _ _ _ HD); by intros []).
    replace (List.filter isFilterCall V) with (@nil Effect)
      by (symmetry; apply (filter_disjoint _ _ _ HV); by intros []).
    replace (List.filter isFilterCall Z) with (@nil Effect)
      by (symmetry; apply (filter_disjoint _ _ _ HZ); by intros []).
    rewrite (filter_all _ _ HF). simpl. by rewrite app_nil_r. }
  rewrite HfF. intros Hi Hb.
  destruct (Hblock i name after Hi Hb) as (Hlen & -> & Hchain).
  unfold countEffects. rewrite HfF. split_and!; [done | | done].
  rewrite !List.filter_app.
  replace (List.filter isDeliverCall D) with (@nil Effect)
    by (symmetry; apply (filter_disjoint _ _ _ HD); by intros []).
  replace (List.filter isDeliverCall F) with (@nil Effect)
    by (symmetry; apply (filter_disjoint _ _ _ HF); by intros []).
  replace (List.filter isDeliverCall Z) with (@nil Effect)
    by (symmetry; apply (filter_disjoint _ _ _ HZ); by intros []).
  reflexivity.
Qed.

(** With room in the recycle channel the cycle ends, by returning or by
    the panic of the body, with the reset pack at the back of the
    channel. *)
Lemma runPipeline_releases (pack : PipelinePack) (world : World) (c : Chan) :
  length (chanBuf c) < chanCap c →
  let body := pipeline_body (mkSt pack world [] c) in
  let cycle := runPipeline pack world c in
  st_chan cycle.2 = mkChan (chanCap c) (chanBuf c ++ [Zero (st_pack body.2)]) ∧
  (cycle.1 = Next tt ∨ cycle.1 = Panicking nil_dereference).
Proof.
  intros Hroom body cycle.
  pose proof (runPipeline_eq pack world c) as Hrun. cbn zeta in Hrun.
  fold body cycle in Hrun.
  destruct (body_shape (mkSt pack world [] c))
    as (_ & _ & _ & _ & _ & _ & _ & _ & Hctl & _).
  fold body in Hctl.
  unfold chan_send in Hrun.
  apply Nat.ltb_lt in Hroom. rewrite Hroom in Hrun. rewrite Hrun. simpl.
  split; [done|]. destruct Hctl as [-> | [-> | ->]]; auto.
Qed.

(** C2: whatever way the body of [pipeline] ends (after the deliveries,
    on a missing decoder, on a decode error, on a missing chain, on a
    blocking filter, or on the panic of a call through a missing filter),
    the pack is reset by [Zero] once and sent to the recycle channel once:
    the trace of the cycle is the trace of the body followed by one
    [Zero] and one send, and the channel holds the reset pack behind what
    it held.  The channel has room, as one of the pool always has. *)
Theorem recycled_exactly_once (pack : PipelinePack) (world : World) (c : Chan) :
  length (chanBuf c) < chanCap c →
  let body := pipeline_body (mkSt pack world [] c) in
  let cycle := runPipeline pack world c in
  st_trace cycle.2 = st_trace body.2 ++ [CallZero; SendRecycle] ∧
  countEffects isZeroCall (st_trace cycle.2) = 1 ∧
  countEffects isRecycleSend (st_trace cycle.2) = 1 ∧
  st_pack cycle.2 = Zero (st_pack body.2) ∧
  st_chan cycle.2 = mkChan (chanCap c) (chanBuf c ++ [Zero (st_pack body.2)]) ∧
  (cycle.1 = Next tt ∨ cycle.1 = Panicking nil_dereference).
Proof.
  intros Hroom body cycle.
  pose proof (runPipeline_eq pack world c) as Hrun. cbn zeta in Hrun.
  fold body cycle in Hrun.
  destruct (body_shape (mkSt pack world [] c))
    as (D & F & V & Htr & _ & HD & HF & HV & Hctl & _).
  fold body in Htr, Hctl. simpl in Htr.
  unfold chan_send in Hrun.
  apply Nat.ltb_lt in Hroom. rewrite Hroom in Hrun. rewrite Hrun. simpl.
  split_and!; try done.
  - unfold countEffects. rewrite Htr, !List.filter_app.
    replace (List.filter isZeroCall D) with (@nil Effect)
      by (symmetry; apply (filter_disjoint _ _ _ HD); by intros []).
    replace (List.filter isZeroCall F) with (@nil Effect)
      by (symmetry; apply (filter_disjoint _ _ _ HF); by intros []).
    replace (List.filter isZeroCall V) with (@nil Effect)
      by (symmetry; apply (filter_disjoint _ _ _ HV); by intros []).
    reflexivity.
  - unfold countEffects. rewrite Htr, !List.filter_app.
    replace (List.filter isRecycleSend D) with (@nil Effect)
      by (symmetry; apply (filter_disjoint _ _ _ HD); by intros []).
    replace (List.filter isRecycleSend F) with (@nil Effect)
      by (symmetry; apply (filter_disjoint _ _ _ HF); by intros []).
    replace (List.filter isRecycleSend V) with (@nil Effect)
      by (symmetry; apply (filter_disjoint _ _ _ HV); by intros []).
    reflexivity.
  - destruct Hctl as [-> | [-> | ->]]; auto.
Qed.

(** ** A missing chain *)

Lemma rangeMap_empty (V : Type) : rangeMap (∅ : gmap string V) = [].
Proof.
  apply Permutation_nil_r. rewrite (rangeMap_ok V ∅). by rewrite map_to_list_empty.
Qed.

(** C5: when the chain name the router resolved is not among the
    configured chains, the router logs the name and returns with the
    pack's set of output names empty; the cycle calls no filter and no
    [Deliver], and the pack is reset and sent to the recycle channel. *)
Theorem missing_chain_aborts (pack : PipelinePack) (world : World) (c : Chan) (s1 : St) :
  decodeIfNecessary (mkSt pack world [] c) = (Next tt, s1) →
  FilterChains (Config (st_pack s1)) !! chainNameFor (st_pack s1) = None →
  length (chanBuf c) < chanCap c →
  let line := Log ("Filter chain doesn't exist: " +:+ chainNameFor (st_pack s1)) in
  let cycle := runPipeline pack world c in
  filterProcessor s1 =
    (Returned,
     mkSt (routed (st_pack s1)) (st_world s1) (st_trace s1 ++ [line]) (st_chan s1)) ∧
  OutputNames (routed (st_pack s1)) = ∅ ∧
  st_trace cycle.2 = st_trace s1 ++ [line; CallZero; SendRecycle] ∧
  countEffects isFilterCall (st_trace cycle.2) = 0 ∧
  countEffects isDeliverCall (st_trace cycle.2) = 0 ∧
  cycle.1 = Next tt ∧
  st_pack cycle.2 = Zero (routed (st_pack s1)) ∧
  st_chan cycle.2 = mkChan (chanCap c) (chanBuf c ++ [Zero (routed (st_pack s1))]).
Proof.
  intros Hdec Hchain Hroom line cycle.
  assert (Hfp : filterProcessor s1 =
                (Returned,
                 mkSt (routed (st_pack s1)) (st_world s1) (st_trace s1 ++ [line])
                   (st_chan s1))).
  { rewrite filterProcessor_routed. by rewrite (runChain_absent _ _ _ Hchain). }
  destruct (decode_frame (mkSt pack world [] c)) as (D & HD & HDc & HDall & _).
  rewrite Hdec in HD, HDc. simpl in HD, HDc.
  assert (Hbody : pipeline_body (mkSt pack world [] c) =
                  (if Blocked (routed (st_pack s1)) then Returned else Next tt,
                   mkSt (routed (st_pack s1)) (st_world s1) (st_trace s1 ++ [line])
                     (st_chan s1))).
  { rewrite pipeline_body_eq, Hdec, Hfp. cbn [st_pack].
    destruct (Blocked (routed (st_pack s1))); [done|].
    rewrite deliverLoop_eq. cbn [st_pack st_world st_trace st_chan].
    rewrite routed_OutputNames, rangeMap_empty. simpl. by rewrite app_nil_r. }
  pose proof (runPipeline_eq pack world c) as Hrun. cbn zeta in Hrun.
  fold cycle in Hrun. rewrite Hbody in Hrun. cbn [fst snd st_pack st_world st_trace st_chan] in Hrun.
  unfold chan_send in Hrun. apply Nat.ltb_lt in Hroom.
  rewrite Hroom in Hrun.
  rewrite Hrun. cbn [fst snd st_pack st_world st_trace st_chan].
  rewrite <- !app_assoc. cbn [app].
  split_and!; try done.
  - apply routed_OutputNames.
  - unfold countEffects. rewrite HD, !List.filter_app. simpl.
    replace (List.filter isFilterCall D) with (@nil Effect)
      by (symmetry; apply (filter_disjoint _ _ _ HDall); by intros []).
    reflexivity.
  - unfold countEffects. rewrite HD, !List.filter_app. simpl.
    replace (List.filter isDeliverCall D) with (@nil Effect)
      by (symmetry; apply (filter_disjoint _ _ _ HDall); by intros []).
    reflexivity.
  - by destruct (Blocked (routed (st_pack s1))).
Qed.

(** ** Delivery *)

Lemma append_newline_inj (a b : string) : a +:+ newline = b +:+ newline → a = b.
Proof.
  revert b. induction a as [|x a IH]; intros [|y b] Heq; simpl in Heq.
  - done.
  - injection Heq as _ Heq. by destruct b.
  - injection Heq as _ Heq. by destruct a.
  - injection Heq as -> Heq. f_equal. by apply IH.
Qed.

Lemma output_line_inj (a b : string) :
  "Output doesn't exist: " +:+ a +:+ newline =
  "Output doesn't exist: " +:+ b +:+ newline → a = b.
Proof. intros Heq. apply String.app_inj in Heq. by apply append_newline_inj. Qed.

Lemma filter_other_names {V : Type} (f : Effect → bool)
    (g : string * V → list Effect) (entries : list (string * V)) (name : string) :
  (∀ n u e, n ≠ name → e ∈ g (n, u) → f e = false) →
  name ∉ entries.*1 →
  List.filter f (flat_map g entries) = [].
Proof.
  intros Hf. induction entries as [|[n u] rest IH]; intros Hnot; simpl; [done|].
  rewrite fmap_cons in Hnot. apply not_elem_of_cons in Hnot as [Hne Hnot].
  rewrite List.filter_app, (IH Hnot), app_nil_r.
  apply filter_none, Forall_forall. intros e He. by apply (Hf n u).
Qed.

(** In the trace of a loop over the entries of a map, the effects that
    concern one key are those of its own entry. *)
Lemma count_for_name {V : Type} (f : Effect → bool)
    (g : string * V → list Effect) (entries : list (string * V))
    (name : string) (v : V) :
  (∀ n u e, n ≠ name → e ∈ g (n, u) → f e = false) →
  NoDup entries.*1 → (name, v) ∈ entries →
  countEffects f (flat_map g entries) = countEffects f (g (name, v)).
Proof.
  intros Hf. unfold countEffects.
  induction entries as [|[n u] rest IH]; intros Hnodup Hin.
  - by apply elem_of_nil in Hin.
  - rewrite fmap_cons in Hnodup. apply NoDup_cons in Hnodup as [Hfresh Hnodup].
    cbn [flat_map]. rewrite List.filter_app, length_app.
    apply elem_of_cons in Hin as [Heq | Hin].
    + inversion Heq; subst n u.
      by rewrite (filter_other_names f g rest name Hf Hfresh), Nat.add_0_r.
    + assert (n ≠ name) as Hne.
      { intros ->. apply Hfresh. apply list_elem_of_fmap. by exists (name, v). }
      rewrite (IH Hnodup Hin).
      replace (List.filter f (g (n, u))) with (@nil Effect); [done|].
      symmetry. apply filter_none, Forall_forall. intros e He. by apply (Hf n u).
Qed.

Lemma isDeliverTo_other (outputs : gmap string OutputT) (name n : string) u e :
  n ≠ name → e ∈ deliveryEffect outputs (n, u) → isDeliverTo name e = false.
Proof.
  intros Hne. unfold deliveryEffect. cbn [fst snd].
  destruct u; cbn [negb]; [|by intros ?%elem_of_nil].
  destruct (outputs !! n); intros ->%list_elem_of_singleton; simpl; [|done].
  by apply bool_decide_eq_false.
Qed.

Lemma isLogLine_other (outputs : gmap string OutputT) (name n : string) u e :
  n ≠ name → e ∈ deliveryEffect outputs (n, u) →
  isLogLine ("Output doesn't exist: " +:+ name +:+ newline) e = false.
Proof.
  intros Hne. unfold deliveryEffect. cbn [fst snd].
  destruct u; cbn [negb]; [|by intros ?%elem_of_nil].
  destruct (outputs !! n); intros ->%list_elem_of_singleton; [done|].
  cbn [isLogLine]. apply bool_decide_eq_false. intros Heq. apply Hne.
  by apply output_line_inj.
Qed.

Lemma count_deliver_self (name : string) :
  countEffects (isDeliverTo name) [CallDeliver name] = 1.
Proof.
  unfold countEffects. cbn [List.filter isDeliverTo].
  by rewrite bool_decide_eq_true_2.
Qed.

Lemma count_log_self (line : string) :
  countEffects (isLogLine line) [Log line] = 1.
Proof.
  unfold countEffects. cbn [List.filter isLogLine].
  by rewrite bool_decide_eq_true_2.
Qed.

Lemma decode_next (s s1 : St) :
  decodeIfNecessary s = (Next tt, s1) →
  ∃ D, st_trace s1 = st_trace s ++ D ∧ Forall (λ e, isDecodeCall e = true) D.
Proof.
  rewrite decodeIfNecessary_eq. destruct (Decoded (st_pack s)).
  - intros [= <-]. exists []. by rewrite app_nil_r.
  - cbn zeta. destruct (Decoders (st_pack s) !! Decoder (st_pack s)) as [decoder|];
      [|done].
    destruct (Decode decoder (st_pack s) (st_world s)) as [[p w] [err|]]; [done|].
    intros [= <-]. eexists. split; [reflexivity | by repeat constructor].
Qed.

Lemma deliveryWorld_foldl (pack : PipelinePack) (entries : list (string * bool))
    (world : World) :
  deliveryWorld pack entries world =
  foldl (λ world output, Deliver output pack world) world
        (omap (selectedOutput pack) entries).
Proof.
  unfold deliveryWorld. revert world.
  induction entries as [|[name use] rest IH]; intros world; [done|].
  cbn [foldl]. rewrite IH.
  change (omap (selectedOutput pack) ((name, use) :: rest)) with
    (match selectedOutput pack (name, use) with
     | Some output => output :: omap (selectedOutput pack) rest
     | None => omap (selectedOutput pack) rest
     end).
  unfold selectedOutput at 2. cbn [fst snd].
  destruct use; cbn [negb]; [|done].
  by destruct (Outputs pack !! name).
Qed.

(** C6: in a cycle that reaches the delivery loop with the pack not
    blocked, for every output name selected in the pack's set of output
    names: when the name is not a key of the pack's [Outputs], the loop
    logs it once and calls no [Deliver] under it, and when it is a key,
    [Deliver] is called under it once, whatever other selected names are
    missing.  The calls take effect: the world the cycle leaves is the
    world the filters left with [Deliver] applied, on the pack as the
    filters left it, once for each selected name that is a key of
    [Outputs] and for nothing else; the missing names change nothing. *)
Theorem missing_output_tolerated (pack : PipelinePack) (world : World) (c : Chan)
    (s1 s2 : St) (name : string) :
  decodeIfNecessary (mkSt pack world [] c) = (Next tt, s1) →
  call filterProcessor s1 = (Next tt, s2) →
  Blocked (st_pack s2) = false →
  OutputNames (st_pack s2) !! name = Some true →
  let cycle := runPipeline pack world c in
  let trace := st_trace cycle.2 in
  match Outputs (st_pack s2) !! name with
  | None =>
      countEffects (isLogLine ("Output doesn't exist: " +:+ name +:+ newline)) trace = 1 ∧
      countEffects (isDeliverTo name) trace = 0
  | Some _ => countEffects (isDeliverTo name) trace = 1
  end ∧
  ∃ delivered : list OutputT,
    delivered ≡ₚ omap (selectedOutput (st_pack s2))
                      (map_to_list (OutputNames (st_pack s2))) ∧
    st_world cycle.2 =
      foldl (λ world output, Deliver output (st_pack s2) world) (st_world s2) delivered.
Proof.
  intros Hdec Hfp Hb Hsel cycle trace.
  destruct (decode_next _ _ Hdec) as (D & HD & HDall). simpl in HD.
  assert (HF : ∃ F, st_trace s2 = D ++ F ∧ Forall (λ e, isFilterCall e = true) F).
  { unfold call in Hfp. rewrite filterProcessor_routed in Hfp.
    destruct (FilterChains (Config (st_pack s1)) !! chainNameFor (st_pack s1))
      as [chain|] eqn:Hchain.
    - rewrite (runChain_present _ _ _ _ Hchain) in Hfp.
      match type of Hfp with context [filterLoop ?names ?s] =>
        destruct (filterLoop_spec names s) as (F & HF & _ & HFall & _);
        destruct (filterLoop names s) as [r2 s2'] eqn:Hloop
      end.
      simpl in HF. exists F. split; [|done].
      destruct r2 as [[]| | |]; inversion Hfp; subst s2'; by rewrite HF, HD.
    - rewrite (runChain_absent _ _ _ Hchain) in Hfp. inversion Hfp; subst s2.
      simpl in Hsel. by rewrite routed_OutputNames, lookup_empty in Hsel. }
  destruct HF as (F & HF & HFall).
  assert (Hbody : pipeline_body (mkSt pack world [] c) =
                  deliverLoop (rangeMap (OutputNames (st_pack s2))) s2).
  { rewrite pipeline_body_eq, Hdec. unfold call in Hfp.
    destruct (filterProcessor s1) as [[[]| | |] s2'];
      inversion Hfp; subst; by rewrite Hb. }
  assert (Hworld : ∃ delivered : list OutputT,
    delivered ≡ₚ omap (selectedOutput (st_pack s2))
                      (map_to_list (OutputNames (st_pack s2))) ∧
    st_world cycle.2 =
      foldl (λ world output, Deliver output (st_pack s2) world) (st_world s2) delivered).
  { exists (omap (selectedOutput (st_pack s2)) (rangeMap (OutputNames (st_pack s2)))).
    split; [by rewrite (rangeMap_ok _ (OutputNames (st_pack s2)))|].
    unfold cycle. rewrite runPipeline_eq. cbn zeta. rewrite Hbody, deliverLoop_eq.
    rewrite <- deliveryWorld_foldl. by destruct (chan_send _ _). }
  assert (Htrace : ∃ Z, trace =
            D ++ F ++ flat_map (deliveryEffect (Outputs (st_pack s2)))
                        (rangeMap (OutputNames (st_pack s2))) ++ Z ∧
            Forall (λ e, isZeroCall e || isRecycleSend e = true) Z).
  { unfold trace, cycle. rewrite runPipeline_eq. cbn zeta. rewrite Hbody, deliverLoop_eq.
    destruct (chan_send _ _); simpl; rewrite HF, <- !app_assoc;
      eexists; (split; [reflexivity | by repeat constructor]). }
  split; [|exact Hworld]. clear Hworld.
  destruct Htrace as (Z & -> & HZ).
  assert (Hnodup : NoDup (rangeMap (OutputNames (st_pack s2))).*1).
  { rewrite (rangeMap_ok _ (OutputNames (st_pack s2))). apply NoDup_fst_map_to_list. }
  assert (Hin : (name, true) ∈ rangeMap (OutputNames (st_pack s2))).
  { rewrite (rangeMap_ok _ (OutputNames (st_pack s2))). by apply elem_of_map_to_list. }
  assert (Hcount : ∀ f,
    (∀ e, isDecodeCall e = true → f e = false) →
    (∀ e, isFilterCall e = true → f e = false) →
    (∀ e, isZeroCall e || isRecycleSend e = true → f e = false) →
    (∀ n u e, n ≠ name → e ∈ deliveryEffect (Outputs (st_pack s2)) (n, u) → f e = false) →
    countEffects f
      (D ++ F ++ flat_map (deliveryEffect (Outputs (st_pack s2)))
                   (rangeMap (OutputNames (st_pack s2))) ++ Z) =
    countEffects f (deliveryEffect (Outputs (st_pack s2)) (name, true))).
  { intros f HfD HfF HfZ Hf.
    rewrite <- (count_for_name f _ _ name true Hf Hnodup Hin).
    unfold countEffects. rewrite !List.filter_app.
    replace (List.filter f D) with (@nil Effect)
      by (symmetry; apply filter_none; eapply Forall_impl; [exact HDall | auto]).
    replace (List.filter f F) with (@nil Effect)
      by (symmetry; apply filter_none; eapply Forall_impl; [exact HFall | auto]).
    replace (List.filter f Z) with (@nil Effect)
      by (symmetry; apply filter_none; eapply Forall_impl; [exact HZ | auto]).
    by rewrite app_nil_r. }
  assert (HcD : countEffects (isDeliverTo name)
      (D ++ F ++ flat_map (deliveryEffect (Outputs (st_pack s2)))
                   (rangeMap (OutputNames (st_pack s2))) ++ Z) =
    countEffects (isDeliverTo name) (deliveryEffect (Outputs (st_pack s2)) (name, true))).
  { apply Hcount; try (by intros []). intros n u e. apply isDeliverTo_other. }
  assert (HcL : countEffects (isLogLine ("Output doesn't exist: " +:+ name +:+ newline))
      (D ++ F ++ flat_map (deliveryEffect (Outputs (st_pack s2)))
                   (rangeMap (OutputNames (st_pack s2))) ++ Z) =
    countEffects (isLogLine ("Output doesn't exist: " +:+ name +:+ newline))
      (deliveryEffect (Outputs (st_pack s2)) (name, true))).
  { apply Hcount; try (by intros []). intros n u e. apply isLogLine_other. }
  rewrite HcD. clear Hcount HcD. unfold deliveryEffect in *. cbn [fst snd negb] in *.
  destruct (Outputs (st_pack s2) !! name).
  - apply count_deliver_self.
  - rewrite HcL. split; [apply count_log_self | reflexivity].
Qed.

(** ** A filter that is not in the pack *)

Lemma selectOutputs_Filters (outputs : list string) (pack : PipelinePack) :
  Filters (selectOutputs outputs pack) = Filters pack.
Proof.
  unfold selectOutputs. revert pack.
  induction outputs as [|o rest IH]; intros pack; simpl; [done|]. by rewrite IH.
Qed.

Lemma filterLoop_app (pre rest : list string) (s s' : St) :
  filterLoop pre s = (Next tt, s') →
  filterLoop (pre ++ rest) s = filterLoop rest s'.
Proof.
  revert s. induction pre as [|name pre IH]; intros s Hpre.
  - simpl in Hpre. by inversion Hpre.
  - rewrite <- app_comm_cons.
    destruct (Filters (st_pack s) !! name) as [filter|] eqn:Hf.
    + rewrite (filterLoop_present _ pre _ _ Hf) in Hpre.
      rewrite (filterLoop_present _ (pre ++ rest) _ _ Hf).
      destruct (FilterMsg filter (st_pack s) (st_world s)) as [pack world].
      cbn beta iota zeta in Hpre |- *.
      destruct (Blocked pack); [done|]. by apply IH.
    + by rewrite (filterLoop_missing _ _ _ Hf) in Hpre.
Qed.

(** C10: a chain may list a filter name that is not a key of the pack's
    [Filters].  When the loop reaches that name (the filters before it ran
    and none blocked), [FilterMsg] is called through the nil value the
    lookup gave: the cycle ends in a panic, after the deferred reset and
    recycle, and nothing is logged for it.  The decoder and output lookups
    check presence instead: a missing decoder is logged and the cycle
    returns, a missing output is logged and the loop goes on. *)
Theorem missing_filter_unguarded (pack : PipelinePack) (world : World) (c : Chan)
    (s1 s' : St) (chain : FilterChainDef) (pre rest : list string)
    (filterName : string) :
  decodeIfNecessary (mkSt pack world [] c) = (Next tt, s1) →
  FilterChains (Config (st_pack s1)) !! chainNameFor (st_pack s1) = Some chain →
  chainFilters chain = pre ++ filterName :: rest →
  filterLoop pre
    (mkSt (selectOutputs (chainOutputs chain) (routed (st_pack s1)))
       (st_world s1) (st_trace s1) (st_chan s1)) = (Next tt, s') →
  Filters (st_pack s') !! filterName = None →
  length (chanBuf c) < chanCap c →
  let cycle := runPipeline pack world c in
  filterProcessor s1 =
    (Panicking nil_dereference,
     mkSt (st_pack s') (st_world s')
       (st_trace s' ++ [CallFilterMsgNil filterName]) (st_chan s')) ∧
  cycle.1 = Panicking nil_dereference ∧
  st_trace cycle.2 =
    st_trace s' ++ [CallFilterMsgNil filterName; CallZero; SendRecycle] ∧
  (∀ s, Decoded (st_pack s) = false →
        Decoders (st_pack s) !! Decoder (st_pack s) = None →
        decodeIfNecessary s =
        (Returned,
         mkSt (st_pack s) (st_world s)
           (st_trace s ++
              [Log ("Decoder doesn't exist: " +:+ Decoder (st_pack s) +:+ newline)])
           (st_chan s))) ∧
  (∀ s name entries,
        Outputs (st_pack s) !! name = None →
        deliverLoop ((name, true) :: entries) s =
        deliverLoop entries
          (mkSt (st_pack s) (st_world s)
             (st_trace s ++ [Log ("Output doesn't exist: " +:+ name +:+ newline)])
             (st_chan s))).
Proof.
  intros Hdec Hchain Hfilters Hpre Hnone Hroom cycle.
  assert (Hfp : filterProcessor s1 =
    (Panicking nil_dereference,
     mkSt (st_pack s') (st_world s')
       (st_trace s' ++ [CallFilterMsgNil filterName]) (st_chan s'))).
  { rewrite filterProcessor_routed, (runChain_present _ _ _ _ Hchain), Hfilters.
    cbn [st_pack st_world st_trace st_chan].
    rewrite (filterLoop_app _ _ _ _ Hpre). by apply filterLoop_missing. }
  split; [exact Hfp|].
  assert (Hchan : st_chan s' = c).
  { match type of Hpre with filterLoop ?names ?s = _ =>
      destruct (filterLoop_spec names s) as (F & _ & HFc & _) end.
    rewrite Hpre in HFc. simpl in HFc. rewrite HFc.
    destruct (decode_frame (mkSt pack world [] c)) as (D & _ & HDc & _).
    by rewrite Hdec in HDc. }
  pose proof (runPipeline_eq pack world c) as Hrun. cbn zeta in Hrun.
  fold cycle in Hrun. rewrite pipeline_body_eq, Hdec, Hfp in Hrun.
  cbn [fst snd st_pack st_world st_trace st_chan] in Hrun.
  unfold chan_send in Hrun. apply Nat.ltb_lt in Hroom. rewrite Hroom in Hrun.
  rewrite Hrun. cbn [fst snd st_trace]. rewrite <- app_assoc.
  split_and!; try done.
  - intros s Hd Hdecoder. rewrite decodeIfNecessary_eq, Hd. cbn zeta.
    by rewrite Hdecoder.
  - intros s name entries Hout. rewrite !deliverLoop_eq.
    cbn [st_pack st_world st_trace st_chan flat_map deliveryWorld foldl fst snd negb].
    unfold deliveryEffect at 1. cbn [fst snd negb]. rewrite Hout.
    by rewrite <- app_assoc.
Qed.

(** ** BroadcastEvent *)

Lemma notifyGlobals_trace {T : Type} (kind : PluginKind)
    (wrappers : gmap string (PluginWrapper T)) (eventType : string)
    (acc : World * list Effect) :
  (notifyGlobals kind wrappers eventType acc).2 =
  acc.2 ++ flat_map (globalEffect kind eventType) (rangeMap wrappers).
Proof.
  unfold notifyGlobals. revert acc.
  induction (rangeMap wrappers) as [|[name wrapper] rest IH]; intros acc.
  - simpl. by rewrite app_nil_r.
  - cbn [foldl flat_map]. rewrite IH. unfold globalEffect at 2. cbn [fst snd].
    destruct (global wrapper); [|done]. cbn [snd]. by rewrite <- app_assoc.
Qed.

Lemma isEventCall_other {T : Type} (kind kind' : PluginKind) (eventType name n : string)
    (u : PluginWrapper T) e :
  n ≠ name → e ∈ globalEffect kind' eventType (n, u) →
  isEventCall kind name eventType e = false.
Proof.
  intros Hne. unfold globalEffect. cbn [fst snd].
  destruct (global u); [|by intros ?%elem_of_nil].
  intros ->%list_elem_of_singleton. cbn [isEventCall].
  rewrite (bool_decide_eq_false_2 (n = name)) by done.
  by rewrite andb_false_r.
Qed.

Lemma isEventCall_other_kind {T : Type} (kind kind' : PluginKind)
    (eventType name : string) (entries : list (string * PluginWrapper T)) :
  kind' ≠ kind →
  List.filter (isEventCall kind name eventType)
    (flat_map (globalEffect kind' eventType) entries) = [].
Proof.
  intros Hne. apply filter_none, Forall_forall. intros e He.
  apply list_elem_of_In, in_flat_map in He as ([n u] & _ & He).
  unfold globalEffect in He. cbn [fst snd] in He.
  destruct (global u); [|done]. destruct He as [<-|[]]. cbn [isEventCall].
  by rewrite (bool_decide_eq_false_2 (kind' = kind)) by done.
Qed.

Lemma count_event_self (kind : PluginKind) (name eventType : string) :
  countEffects (isEventCall kind name eventType) [CallEvent kind name eventType] = 1.
Proof.
  unfold countEffects. cbn [List.filter isEventCall].
  by rewrite !bool_decide_eq_true_2.
Qed.

Lemma notifyGlobals_world {T : Type} (kind : PluginKind)
    (wrappers : gmap string (PluginWrapper T)) (eventType : string)
    (acc : World * list Effect) :
  (notifyGlobals kind wrappers eventType acc).1 =
  foldl (λ world g, Event g eventType world) acc.1 (omap globalOf (rangeMap wrappers)).
Proof.
  unfold notifyGlobals. revert acc.
  induction (rangeMap wrappers) as [|[name wrapper] rest IH]; intros acc; [done|].
  cbn [foldl]. rewrite IH.
  change (omap globalOf ((name, wrapper) :: rest)) with
    (match globalOf (name, wrapper) with
     | Some g => g :: omap globalOf rest
     | None => omap globalOf rest
     end).
  unfold globalOf at 2. cbn [fst snd].
  by destruct (global wrapper).
Qed.

(** C7: for every event type, [RELOAD] and [STOP] among them,
    [BroadcastEvent] calls the [Event] handler once for every filter
    wrapper and once for every output wrapper of the configuration whose
    global is not nil, whether the post on the topic failed or not; a
    failed post is logged, right after the post.  The handlers take
    effect: the world [BroadcastEvent] leaves is the world the post left
    with [Event] applied once for the global of each of these wrappers,
    the filters' before the outputs', and for nothing else. *)
Theorem broadcast_reaches_every_global (config : PipelineConfig)
    (eventType : string) (world : World) :
  let result := BroadcastEvent config eventType world in
  let trace := result.2 in
  (∀ name wrapper g,
      cfgFilters config !! name = Some wrapper → global wrapper = Some g →
      countEffects (isEventCall KFilter name eventType) trace = 1) ∧
  (∀ name wrapper g,
      cfgOutputs config !! name = Some wrapper → global wrapper = Some g →
      countEffects (isEventCall KOutput name eventType) trace = 1) ∧
  trace =
    match (notifyPost eventType world).2 with
    | Some err => [CallPost eventType (Some err);
                   Log ("Error sending " +:+ err +:+ " event:")]
    | None => [CallPost eventType None]
    end
    ++ flat_map (globalEffect KFilter eventType) (rangeMap (cfgFilters config))
    ++ flat_map (globalEffect KOutput eventType) (rangeMap (cfgOutputs config)) ∧
  ∃ ofFilters ofOutputs : list GlobalT,
    ofFilters ≡ₚ omap globalOf (map_to_list (cfgFilters config)) ∧
    ofOutputs ≡ₚ omap globalOf (map_to_list (cfgOutputs config)) ∧
    result.1 =
      foldl (λ world g, Event g eventType world) (notifyPost eventType world).1
            (ofFilters ++ ofOutputs).
Proof.
  intros result trace.
  assert (Htrace : trace =
    match (notifyPost eventType world).2 with
    | Some err => [CallPost eventType (Some err);
                   Log ("Error sending " +:+ err +:+ " event:")]
    | None => [CallPost eventType None]
    end
    ++ flat_map (globalEffect KFilter eventType) (rangeMap (cfgFilters config))
    ++ flat_map (globalEffect KOutput eventType) (rangeMap (cfgOutputs config))).
  { unfold trace, result, BroadcastEvent.
    destruct (notifyPost eventType world) as [world' err].
    rewrite !notifyGlobals_trace. cbn [fst snd]. by rewrite <- app_assoc. }
  assert (Hpost : ∀ kind name,
    List.filter (isEventCall kind name eventType)
      match (notifyPost eventType world).2 with
      | Some err => [CallPost eventType (Some err);
                     Log ("Error sending " +:+ err +:+ " event:")]
      | None => [CallPost eventType None]
      end = []).
  { intros kind name. by destruct (notifyPost eventType world).2. }
  split_and!; [| | exact Htrace |].
  - intros name wrapper g Hlookup Hglobal. rewrite Htrace.
    unfold countEffects. rewrite !List.filter_app, Hpost.
    rewrite (isEventCall_other_kind KFilter KOutput) by done.
    rewrite app_nil_r. cbn [app].
    change (countEffects (isEventCall KFilter name eventType)
              (flat_map (globalEffect KFilter eventType) (rangeMap (cfgFilters config))) = 1).
    rewrite (count_for_name _ _ _ name wrapper).
    + unfold globalEffect. cbn [fst snd]. rewrite Hglobal. apply count_event_self.
    + intros n u e. apply isEventCall_other.
    + rewrite (rangeMap_ok _ (cfgFilters config)). apply NoDup_fst_map_to_list.
    + rewrite (rangeMap_ok _ (cfgFilters config)). by apply elem_of_map_to_list.
  - intros name wrapper g Hlookup Hglobal. rewrite Htrace.
    unfold countEffects. rewrite !List.filter_app, Hpost.
    rewrite (isEventCall_other_kind KOutput KFilter) by done.
    cbn [app].
    change (countEffects (isEventCall KOutput name eventType)
              (flat_map (globalEffect KOutput eventType) (rangeMap (cfgOutputs config))) = 1).
    rewrite (count_for_name _ _ _ name wrapper).
    + unfold globalEffect. cbn [fst snd]. rewrite Hglobal. apply count_event_self.
    + intros n u e. apply isEventCall_other.
    + rewrite (rangeMap_ok _ (cfgOutputs config)). apply NoDup_fst_map_to_list.
    + rewrite (rangeMap_ok _ (cfgOutputs config)). by apply elem_of_map_to_list.
  - exists (omap globalOf (rangeMap (cfgFilters config))),
           (omap globalOf (rangeMap (cfgOutputs config))).
    split_and!.
    + by rewrite (rangeMap_ok _ (cfgFilters config)).
    + by rewrite (rangeMap_ok _ (cfgOutputs config)).
    + unfold result, BroadcastEvent.
      destruct (notifyPost eventType world) as [world' err].
      rewrite !notifyGlobals_world. cbn [fst snd]. by rewrite foldl_app.
Qed.

(** ** The Decoded flag *)






(** ** The pool *)

Lemma int_wrap_small (z : Z) : (0 ≤ z < 2 ^ 63)%Z → int_wrap z = z.
Proof. intros Hz. unfold int_wrap. rewrite Z.mod_small; lia. Qed.

Lemma fillPool_spec (n : nat) (config : PipelineConfig) (c : Chan) (world : World) :
  length (chanBuf c) + n ≤ chanCap c →
  ∃ c' world',
    fillPool n config c world = Some (c', world') ∧
    chanCap c' = chanCap c ∧
    length (chanBuf c') = length (chanBuf c) + n.
Proof.
  revert c world. induction n as [|n IH]; intros c world Hroom.
  - exists c, world. simpl. split_and!; [done | done | lia].
  - cbn [fillPool].
    destruct (NewPipelinePack config world) as [pack world1].
    unfold chan_send.
    assert ((length (chanBuf c) <? chanCap c)%nat = true) as ->
      by (apply Nat.ltb_lt; lia).
    cbn [mbind option_bind].
    destruct (IH (mkChan (chanCap c) (chanBuf c ++ [pack])) world1)
      as (c' & world' & Hfill & Hcap & Hlen).
    { cbn [chanBuf chanCap]. rewrite length_app. simpl. lia. }
    exists c', world'. split_and!; [done | done |].
    rewrite Hlen. cbn [chanBuf]. rewrite length_app. simpl. lia.
Qed.

Lemma pool_step_invariant (size : nat) (op : PoolOp) (pool pool' : Pool) :
  poolInvariant size pool →
  pool_step op pool = Stepped pool' →
  poolInvariant size pool'.
Proof.
  intros [Hcap Hsum] Hstep. destruct op as [|i fill]; simpl in Hstep.
  - unfold chan_recv in Hstep.
    destruct (chanBuf (recycleChan pool)) as [|pack rest] eqn:Hbuf; [done|].
    inversion Hstep; subst pool'. split; cbn; [done|].
    rewrite length_app. simpl in *. lia.
  - destruct (outstanding pool !! i) as [pack|] eqn:Hi; [|done].
    assert (Hroom : length (chanBuf (recycleChan pool)) < chanCap (recycleChan pool))
      by lia.
    destruct (runPipeline_releases (fill pack) (poolWorld pool) (recycleChan pool) Hroom)
      as (Hchan & _).
    destruct (runPipeline (fill pack) (poolWorld pool) (recycleChan pool))
      as [r s] eqn:Hrun.
    cbn [snd] in Hchan.
    assert (Hlen : length (delete i (outstanding pool)) + 1 = length (outstanding pool)).
    { pose proof (lookup_lt_Some _ _ _ Hi). rewrite length_delete by eauto. lia. }
    destruct r as [[]| | |]; inversion Hstep; subst pool'; split; cbn;
      rewrite Hchan; cbn; try done; rewrite length_app; simpl; lia.
Qed.

Lemma pool_run_invariant (size : nat) (ops : list PoolOp) (pool pool' : Pool) :
  poolInvariant size pool →
  pool_run ops pool = Some pool' →
  poolInvariant size pool'.
Proof.
  revert pool. induction ops as [|op ops IH]; intros pool Hinv Hrun; simpl in Hrun.
  - by inversion Hrun; subst.
  - destruct (pool_step op pool) as [pool1| | |] eqn:Hstep; try done.
    eapply IH; [|exact Hrun]. by eapply pool_step_invariant.
Qed.

(** C9: for a pool size that is a count Go's [int] can be incremented at,
    [Run] makes the recycle channel with [PoolSize + 1] slots and fills it
    with [PoolSize] packs.  After any schedule of acquires and submits the
    packs held by inputs are at most [PoolSize]: they and the packs in the
    channel are [PoolSize] together.  When inputs hold [PoolSize] packs an
    acquire has to wait, a submit of one of them does not wait on the
    channel, and once it has released its pack an acquire goes through. *)
Theorem pool_bound (config : PipelineConfig) (world : World) :
  (0 ≤ PoolSize config < 2 ^ 63 - 1)%Z →
  ∃ pool0,
    startPool config world = Some pool0 ∧
    chanCap (recycleChan pool0) = Z.to_nat (PoolSize config + 1) ∧
    length (chanBuf (recycleChan pool0)) = Z.to_nat (PoolSize config) ∧
    outstanding pool0 = [] ∧
    ∀ ops pool,
      pool_run ops pool0 = Some pool →
      length (outstanding pool) ≤ Z.to_nat (PoolSize config) ∧
      length (outstanding pool) + length (chanBuf (recycleChan pool))
        = Z.to_nat (PoolSize config) ∧
      (length (outstanding pool) = Z.to_nat (PoolSize config) →
       pool_step Acquire pool = Suspends ∧
       ∀ i fill pool',
         pool_step (Submit i fill) pool = Stepped pool' →
         ∃ pool'', pool_step Acquire pool' = Stepped pool'') ∧
      (∀ i fill pack,
         outstanding pool !! i = Some pack →
         (∃ pool', pool_step (Submit i fill) pool = Stepped pool') ∨
         pool_step (Submit i fill) pool = Crashes).
Proof.
  intros Hsize. unfold startPool, newPool, make_chan.
  rewrite int_wrap_small by lia.
  assert ((PoolSize config + 1 <? 0)%Z = false) as -> by lia.
  cbn [mbind option_bind].
  destruct (fillPool_spec (Z.to_nat (PoolSize config)) config
              (mkChan (Z.to_nat (PoolSize config + 1)) []) world)
    as (c0 & world0 & Hfill & Hcap & Hlen).
  { cbn. lia. }
  rewrite Hfill. cbn in Hcap, Hlen.
  exists (mkPool c0 [] world0). cbn [recycleChan outstanding].
  split_and!; [done | done | done | done |].
  assert (Hinv0 : poolInvariant (Z.to_nat (PoolSize config)) (mkPool c0 [] world0)).
  { split; cbn; [|done]. rewrite Hcap. lia. }
  intros ops pool Hrun.
  pose proof (pool_run_invariant _ _ _ _ Hinv0 Hrun) as [HcapP HsumP].
  split_and!; [lia | done | |].
  - intros Hfull.
    assert (Hempty : chanBuf (recycleChan pool) = []).
    { apply length_zero_iff_nil. lia. }
    split.
    + simpl. unfold chan_recv. by rewrite Hempty.
    + intros i fill pool' Hstep.
      pose proof (pool_step_invariant _ _ _ _ (conj HcapP HsumP) Hstep) as [_ Hsum'].
      assert (Hlt : length (outstanding pool') < length (outstanding pool)).
      { simpl in Hstep.
        destruct (outstanding pool !! i) as [pack|] eqn:Hi; [|done].
        pose proof (lookup_lt_Some _ _ _ Hi).
        destruct (runPipeline _ _ _) as [[[]| | |] s]; inversion Hstep; subst pool';
          cbn; rewrite length_delete by eauto; lia. }
      simpl. unfold chan_recv.
      destruct (chanBuf (recycleChan pool')) as [|pack rest] eqn:Hbuf; [|eauto].
      simpl in Hsum'. lia.
  - intros i fill pack Hi. simpl. rewrite Hi.
    assert (Hroom : length (chanBuf (recycleChan pool)) < chanCap (recycleChan pool))
      by lia.
    destruct (runPipeline_releases (fill pack) (poolWorld pool) (recycleChan pool) Hroom)
      as (_ & Hctl).
    destruct (runPipeline _ _ _) as [r s]. cbn [fst] in Hctl.
    destruct Hctl as [-> | ->]; eauto.
Qed.

End Properties.

(** * The properties on the concrete installation *)

Section Witnesses.

Import Scenario.
#[local] Existing Instance types.
#[local] Existing Instance plugins.
#[local] Existing Instance rangeSorted.

Lemma rangeSorted_ok : RangeMapOk rangeSorted.
Proof. intros V m. reflexivity. Qed.

(** A message with no routable text goes through the default chain and is
    delivered to [out1] once. *)
Example cycle_unrouted :
  (cycleOf "").1 = Next tt ∧
  st_trace (cycleOf "").2 =
    [CallDecode "text" None; CallDeliver "out1"; CallZero; SendRecycle] ∧
  st_world (cycleOf "").2 = ["out1 <- "] ∧
  length (chanBuf (st_chan (cycleOf "").2)) = 1.
Proof. vm_compute. auto. Qed.

(** The chain [block-all; noop]: [noop] never runs, nothing is delivered,
    and the pack comes back with [Blocked] reset. *)
Example cycle_blocked :
  filterNamesOf (st_trace (cycleOf "blocked").2) = ["block-all"] ∧
  countEffects isDeliverCall (st_trace (cycleOf "blocked").2) = 0 ∧
  st_world (cycleOf "blocked").2 = [] ∧
  Blocked (st_pack (cycleOf "blocked").2) = false.
Proof. vm_compute. auto. Qed.

(** A decode error: no filter and no output runs, and the pack comes back
    with [Decoded] false. *)
Example cycle_decode_error :
  let cycle := runPipeline (set_Decoder "failing" (received "lossy")) [] emptyChan in
  st_trace cycle.2 =
    [CallDecode "failing" (Some "unexpected end of input");
     Log "Error decoding message (failing): unexpected end of input";
     CallZero; SendRecycle] ∧
  Decoded (st_pack cycle.2) = false.
Proof. vm_compute. auto. Qed.

Lemma filter_short_circuit_witness :
  let trace := st_trace (cycleOf "blocked").2 in
  countEffects isFilterCall trace = 1 ∧
  countEffects isDeliverCall trace = 0 ∧
  ∃ s1 chain,
    decodeIfNecessary (mkSt (received "blocked") [] [] emptyChan) = (Next tt, s1) ∧
    FilterChains (Config (st_pack s1)) !! chainNameFor (st_pack s1) = Some chain ∧
    chainFilters chain !! 0 = Some "block-all".
Proof.
  apply (filter_short_circuit (received "blocked") [] emptyChan 0 "block-all"
           (firstFilterResult "blocked")).
  - vm_compute. reflexivity.
  - vm_compute. reflexivity.
Defined.

Lemma recycled_exactly_once_witness :
  let body := pipeline_body (mkSt (received "lossy") [] [] emptyChan) in
  let cycle := cycleOf "lossy" in
  st_trace cycle.2 = st_trace body.2 ++ [CallZero; SendRecycle] ∧
  countEffects isZeroCall (st_trace cycle.2) = 1 ∧
  countEffects isRecycleSend (st_trace cycle.2) = 1 ∧
  st_pack cycle.2 = Zero (st_pack body.2) ∧
  st_chan cycle.2 = mkChan 3 ([] ++ [Zero (st_pack body.2)]) ∧
  (cycle.1 = Next tt ∨ cycle.1 = Panicking nil_dereference).
Proof.
  apply (recycled_exactly_once (received "lossy") [] emptyChan).
  simpl. lia.
Defined.

Lemma Zero_resets_witness :
  let z := Zero usedPack in
  Decoded z = false ∧ Blocked z = false ∧
  Decoder z = "text" ∧
  FilterChain z = "default" ∧
  OutputNames z = ∅ ∧
  len (MsgBytes z) = cap (MsgBytes z) ∧
  cap (MsgBytes z) = cap (MsgBytes usedPack).
Proof.
  apply (Zero_resets rangeSorted_ok usedPack).
Defined.

Lemma missing_chain_aborts_witness :
  let s1 := afterDecode "nowhere" in
  let line := Log ("Filter chain doesn't exist: " +:+ chainNameFor (st_pack s1)) in
  let cycle := cycleOf "nowhere" in
  filterProcessor s1 =
    (Returned,
     mkSt (routed (st_pack s1)) (st_world s1) (st_trace s1 ++ [line]) (st_chan s1)) ∧
  OutputNames (routed (st_pack s1)) = ∅ ∧
  st_trace cycle.2 = st_trace s1 ++ [line; CallZero; SendRecycle] ∧
  countEffects isFilterCall (st_trace cycle.2) = 0 ∧
  countEffects isDeliverCall (st_trace cycle.2) = 0 ∧
  cycle.1 = Next tt ∧
  st_pack cycle.2 = Zero (routed (st_pack s1)) ∧
  st_chan cycle.2 = mkChan 3 ([] ++ [Zero (routed (st_pack s1))]).
Proof.
  apply (missing_chain_aborts rangeSorted_ok (received "nowhere") [] emptyChan
           (afterDecode "nowhere")).
  - vm_compute. reflexivity.
  - vm_compute. reflexivity.
  - simpl. lia.
Defined.

Lemma missing_output_tolerated_witness :
  let cycle := cycleOf "lossy" in
  let trace := st_trace cycle.2 in
  (countEffects (isLogLine ("Output doesn't exist: " +:+ "out2" +:+ newline)) trace = 1 ∧
   countEffects (isDeliverTo "out2") trace = 0) ∧
  countEffects (isDeliverTo "out1") trace = 1 ∧
  st_world cycle.2 = ["out1 <- lossy"].
Proof.
  destruct (missing_output_tolerated rangeSorted_ok (received "lossy") [] emptyChan
              (afterDecode "lossy") (afterFilters "lossy") "out2") as [Hmissing _];
    [vm_compute; reflexivity ..|].
  destruct (missing_output_tolerated rangeSorted_ok (received "lossy") [] emptyChan
              (afterDecode "lossy") (afterFilters "lossy") "out1")
    as [Hpresent (delivered & Hperm & Hworld)];
    [vm_compute; reflexivity ..|].
  split; [|split].
  - vm_compute in Hmissing. vm_compute. exact Hmissing.
  - vm_compute in Hpresent. vm_compute. exact Hpresent.
  - vm_compute in Hperm. apply Permutation_singleton_r in Hperm. subst delivered.
    etransitivity; [exact Hworld|]. vm_compute. reflexivity.
Defined.

Lemma broadcast_reaches_every_global_witness :
  let result := BroadcastEvent config STOP [] in
  let trace := result.2 in
  (∀ name wrapper g,
      cfgFilters config !! name = Some wrapper → global wrapper = Some g →
      countEffects (isEventCall KFilter name STOP) trace = 1) ∧
  (∀ name wrapper g,
      cfgOutputs config !! name = Some wrapper → global wrapper = Some g →
      countEffects (isEventCall KOutput name STOP) trace = 1) ∧
  trace =
    match (notifyPost STOP []).2 with
    | Some err => [CallPost STOP (Some err);
                   Log ("Error sending " +:+ err +:+ " event:")]
    | None => [CallPost STOP None]
    end
    ++ flat_map (globalEffect KFilter STOP) (rangeMap (cfgFilters config))
    ++ flat_map (globalEffect KOutput STOP) (rangeMap (cfgOutputs config)) ∧
  ∃ ofFilters ofOutputs : list GlobalT,
    ofFilters ≡ₚ omap globalOf (map_to_list (cfgFilters config)) ∧
    ofOutputs ≡ₚ omap globalOf (map_to_list (cfgOutputs config)) ∧
    result.1 =
      foldl (λ world g, Event g STOP world) (notifyPost STOP []).1
            (ofFilters ++ ofOutputs).
Proof.
  apply (broadcast_reaches_every_global rangeSorted_ok config STOP []).
Defined.

Lemma pool_bound_witness :
  ∃ pool0,
    startPool config [] = Some pool0 ∧
    chanCap (recycleChan pool0) = Z.to_nat (PoolSize config + 1) ∧
    length (chanBuf (recycleChan pool0)) = Z.to_nat (PoolSize config) ∧
    outstanding pool0 = [] ∧
    ∀ ops pool,
      pool_run ops pool0 = Some pool →
      length (outstanding pool) ≤ Z.to_nat (PoolSize config) ∧
      length (outstanding pool) + length (chanBuf (recycleChan pool))
        = Z.to_nat (PoolSize config) ∧
      (length (outstanding pool) = Z.to_nat (PoolSize config) →
       pool_step Acquire pool = Suspends ∧
       ∀ i fill pool',
         pool_step (Submit i fill) pool = Stepped pool' →
         ∃ pool'', pool_step Acquire pool' = Stepped pool'') ∧
      (∀ i fill pack,
         outstanding pool !! i = Some pack →
         (∃ pool', pool_step (Submit i fill) pool = Stepped pool') ∨
         pool_step (Submit i fill) pool = Crashes).
Proof.
  apply (pool_bound config []).
  change (0 ≤ 2 < 2 ^ 63 - 1)%Z. lia.
Defined.

Lemma missing_filter_unguarded_witness :
  let chain := mkChain ["out1"] ["noop"; "ghost"] in
  let s' := (filterLoop ["noop"] (afterRouting "late" chain)).2 in
  filterProcessor (afterDecode "late") =
    (Panicking nil_dereference,
     mkSt (st_pack s') (st_world s') (st_trace s' ++ [CallFilterMsgNil "ghost"])
       (st_chan s')) ∧
  (cycleOf "late").1 = Panicking nil_dereference ∧
  st_trace (cycleOf "late").2 =
    st_trace s' ++ [CallFilterMsgNil "ghost"; CallZero; SendRecycle].
Proof.
  pose proof (missing_filter_unguarded (received "late") [] emptyChan
                (afterDecode "late")
                (filterLoop ["noop"]
                   (afterRouting "late" (mkChain ["out1"] ["noop"; "ghost"]))).2
                (mkChain ["out1"] ["noop"; "ghost"]) ["noop"] [] "ghost") as Hthm.
  destruct Hthm as (Hfp & Hctl & Htrace & _).
  - vm_compute. reflexivity.
  - vm_compute. reflexivity.
  - reflexivity.
  - vm_compute. reflexivity.
  - vm_compute. reflexivity.
  - simpl. lia.
  - split_and!; assumption.
Defined.


End Witnesses.

(** * More properties of the runner *)

Section Coverage.

Context `{Plugins} `{!MapRange}.
Hypothesis rangeMap_ok : RangeMapOk _.

(** ** NewPipelinePack and Zero *)

Lemma createAll_lookup {T : Type} (wrappers : gmap string (PluginWrapper T))
    (instances : gmap string T) (world : World) (name : string) :
  is_Some ((createAll wrappers instances world).1 !! name) ↔
  is_Some (wrappers !! name) ∨ is_Some (instances !! name).
Proof.
  unfold createAll.
  assert (Hfold : ∀ (l : list (string * PluginWrapper T)) (acc : gmap string T * World),
    is_Some ((foldl (λ acc entry,
                let '(inst, world) := Create (snd entry) (snd acc) in
                (<[fst entry := inst]> (fst acc), world)) acc l).1 !! name) ↔
    name ∈ l.*1 ∨ is_Some (acc.1 !! name)).
  { induction l as [|[n wrapper] rest IH]; intros acc.
    - simpl. split; [by right | intros [Hin|?]; [by apply elem_of_nil in Hin | done]].
    - cbn [foldl fst snd]. rewrite IH.
      destruct (Create wrapper acc.2) as [inst world']. cbn [fst].
      rewrite fmap_cons, elem_of_cons. cbn [fst].
      destruct (decide (name = n)) as [->|Hne].
      + rewrite lookup_insert_eq. split; [by left; left | by right; eexists].
      + rewrite lookup_insert_ne by done. split.
        * intros [?|?]; auto.
        * intros [[?|?]|?]; [done | by left | by right]. }
  rewrite Hfold. cbn [fst].
  assert (name ∈ (rangeMap wrappers).*1 ↔ is_Some (wrappers !! name)) as ->; [|done].
  rewrite (rangeMap_ok _ wrappers). split.
  - intros ([n w] & -> & Hin)%list_elem_of_fmap. apply elem_of_map_to_list in Hin.
    by eexists.
  - intros [w Hw]. apply list_elem_of_fmap. exists (name, w).
    split; [done | by apply elem_of_map_to_list].
Qed.

Lemma NewPipelinePack_eq (config : PipelineConfig) (world : World) :
  ∃ decoders filters outputs w1 w2 w3,
    createAll (cfgDecoders config) ∅ world = (decoders, w1) ∧
    createAll (cfgFilters config) ∅ w1 = (filters, w2) ∧
    createAll (cfgOutputs config) ∅ w2 = (outputs, w3) ∧
    NewPipelinePack config world =
    (mkPack (make_bytes (Z.to_nat 65536)) emptyMessage config
       (DefaultDecoder config) decoders filters outputs false false
       (DefaultFilterChain config) 0 ∅, w3).
Proof.
  unfold NewPipelinePack, InitDecoders, InitFilters, InitOutputs. cbn zeta.
  destruct (createAll (cfgDecoders config) _ world) as [decoders w1] eqn:Hd.
  cbn [Decoders Filters Outputs set_Decoders] in *.
  destruct (createAll (cfgFilters config) _ w1) as [filters w2] eqn:Hf.
  cbn [Decoders Filters Outputs set_Filters set_Decoders] in *.
  destruct (createAll (cfgOutputs config) _ w2) as [outputs w3] eqn:Ho.
  cbn [Decoders Filters Outputs set_Filters set_Decoders] in *.
  by exists decoders, filters, outputs, w1, w2, w3.
Qed.

(** A new pack has an instance under every configured decoder, filter
    and output name and under no other name, whatever order the
    configuration maps are ranged in and whatever the factories do to the
    world. *)
Theorem NewPipelinePack_instances (config : PipelineConfig) (world : World)
    (name : string) :
  let pack := (NewPipelinePack config world).1 in
  (is_Some (Decoders pack !! name) ↔ is_Some (cfgDecoders config !! name)) ∧
  (is_Some (Filters pack !! name) ↔ is_Some (cfgFilters config !! name)) ∧
  (is_Some (Outputs pack !! name) ↔ is_Some (cfgOutputs config !! name)).
Proof.
  destruct (NewPipelinePack_eq config world)
    as (decoders & filters & outputs & w1 & w2 & w3 & Hd & Hf & Ho & ->).
  cbn.
  pose proof (createAll_lookup (cfgDecoders config) ∅ world name) as Hd'.
  pose proof (createAll_lookup (cfgFilters config) ∅ w1 name) as Hf'.
  pose proof (createAll_lookup (cfgOutputs config) ∅ w2 name) as Ho'.
  rewrite Hd in Hd'. rewrite Hf in Hf'. rewrite Ho in Ho'.
  cbn [fst] in *.
  assert (Hn : ∀ (A : Type) (P : Prop), P ∨ is_Some (@None A) ↔ P).
  { intros A P. split; [intros [?|[? ?]]; done | auto]. }
  rewrite lookup_empty, Hn in Hd'. rewrite lookup_empty, Hn in Hf'.
  rewrite lookup_empty, Hn in Ho'. done.
Qed.

Lemma Zero_isReset (self : PipelinePack) : isReset (Zero self).
Proof.
  unfold isReset. cbn. split_and!; try reflexivity.
  apply (clearOutputNames_empty rangeMap_ok).
Qed.

Lemma isReset_fixed (self : PipelinePack) : isReset self → Zero self = self.
Proof.
  intros (Hd & Hb & Hdec & Hfc & Hout & Hlen).
  destruct self as [[arr n] msg cfg dec decs fils outs d b fc cc names].
  cbn in *. subst. unfold Zero. cbn.
  rewrite (clearOutputNames_empty rangeMap_ok). reflexivity.
Qed.

Lemma NewPipelinePack_isReset (config : PipelineConfig) (world : World) :
  isReset (NewPipelinePack config world).1.
Proof.
  destruct (NewPipelinePack_eq config world)
    as (decoders & filters & outputs & w1 & w2 & w3 & _ & _ & _ & ->).
  cbn [fst]. generalize (Z.to_nat 65536). intros n.
  unfold isReset.
  cbn [MsgBytes Message Config Decoder Decoders Filters Outputs Decoded
       Blocked FilterChain ChainCount OutputNames].
  split_and!; try reflexivity.
  unfold cap, make_bytes. cbn [array len]. by rewrite length_replicate.
Qed.

(** The packs [Zero] leaves as they are are the reset ones. *)
Theorem Zero_fixed_iff (self : PipelinePack) : Zero self = self ↔ isReset self.
Proof.
  split.
  - intros <-. apply Zero_isReset.
  - apply isReset_fixed.
Qed.

(** The packs the pool is filled with are in the state recycled packs
    come back in: [Zero] changes nothing in a new pack, whose buffer has
    its full 65536 bytes. *)
Theorem Zero_of_new_pack (config : PipelineConfig) (world : World) :
  let pack := (NewPipelinePack config world).1 in
  Zero pack = pack ∧ len (MsgBytes pack) = Z.to_nat 65536 ∧
  Config pack = config ∧ Message pack = emptyMessage.
Proof.
  intros pack. split; [apply isReset_fixed, NewPipelinePack_isReset|].
  unfold pack.
  destruct (NewPipelinePack_eq config world)
    as (decoders & filters & outputs & w1 & w2 & w3 & _ & _ & _ & ->).
  done.
Qed.

(** Resetting twice is resetting once, and a reset touches neither the
    message, the configuration, the plugin instances nor the bytes of the
    buffer. *)
Theorem Zero_idempotent (self : PipelinePack) :
  Zero (Zero self) = Zero self ∧
  Message (Zero self) = Message self ∧ Config (Zero self) = Config self ∧
  Decoders (Zero self) = Decoders self ∧ Filters (Zero self) = Filters self ∧
  Outputs (Zero self) = Outputs self ∧
  array (MsgBytes (Zero self)) = array (MsgBytes self).
Proof.
  split_and!; try reflexivity.
  apply isReset_fixed, Zero_isReset.
Qed.

(** ** The router *)

Lemma selectOutputs_lookup (outputs : list string) (pack : PipelinePack) (name : string) :
  OutputNames (selectOutputs outputs pack) !! name =
  if decide (name ∈ outputs) then Some true else OutputNames pack !! name.
Proof.
  unfold selectOutputs. revert pack.
  induction outputs as [|o rest IH]; intros pack.
  - cbn [foldl]. destruct (decide (name ∈ [])) as [Hin|_]; [|done].
    by apply elem_of_nil in Hin.
  - cbn [foldl]. rewrite IH. cbn [OutputNames set_OutputNames].
    destruct (decide (name ∈ rest)) as [Hin|Hnin];
      destruct (decide (name ∈ o :: rest)) as [Hin'|Hnin']; try done.
    + exfalso. apply Hnin'. apply elem_of_cons. by right.
    + apply elem_of_cons in Hin' as [->|?]; [|done]. apply lookup_insert_eq.
    + apply lookup_insert_ne. intros ->. apply Hnin'. apply elem_of_cons. by left.
Qed.

Lemma selectOutputs_FilterChain (outputs : list string) (pack : PipelinePack) :
  FilterChain (selectOutputs outputs pack) = FilterChain pack.
Proof.
  unfold selectOutputs. revert pack.
  induction outputs as [|o rest IH]; intros pack; simpl; [done|]. by rewrite IH.
Qed.

Lemma routed_FilterChain (pack : PipelinePack) :
  FilterChain (routed pack) = chainNameFor pack.
Proof. unfold routed, chainNameFor. by destruct (LocateChain _ _) as [name [|]]. Qed.

(** When the resolved chain is configured, the filters get a pack whose
    chain field is the resolved name and whose selected outputs are the
    outputs of that chain and no other: the names a pack carried in from
    an earlier use are gone.  A chain without filters leaves the pack in
    that state. *)
Theorem routing_selects_outputs (s : St) (chain : FilterChainDef) :
  FilterChains (Config (st_pack s)) !! chainNameFor (st_pack s) = Some chain →
  let routedState :=
    mkSt (selectOutputs (chainOutputs chain) (routed (st_pack s)))
      (st_world s) (st_trace s) (st_chan s) in
  filterProcessor s = filterLoop (chainFilters chain) routedState ∧
  FilterChain (st_pack routedState) = chainNameFor (st_pack s) ∧
  (∀ name, OutputNames (st_pack routedState) !! name =
           if decide (name ∈ chainOutputs chain) then Some true else None) ∧
  (chainFilters chain = [] → filterProcessor s = (Next tt, routedState)).
Proof.
  intros Hchain routedState.
  assert (Hfp : filterProcessor s = filterLoop (chainFilters chain) routedState).
  { by rewrite filterProcessor_routed, (runChain_present _ _ _ _ Hchain). }
  split_and!.
  - exact Hfp.
  - cbn. by rewrite selectOutputs_FilterChain, routed_FilterChain.
  - intros name. cbn. rewrite selectOutputs_lookup, routed_OutputNames.
    by rewrite lookup_empty.
  - intros Hnil. by rewrite Hfp, Hnil.
Qed.

(** ** The filter loop *)

Lemma filterNamesOf_app (l1 l2 : list Effect) :
  filterNamesOf (l1 ++ l2) = filterNamesOf l1 ++ filterNamesOf l2.
Proof. unfold filterNamesOf. apply omap_app. Qed.

Lemma filterNamesOf_none (l : list Effect) :
  Forall (λ e, isFilterCall e = false) l → filterNamesOf l = [].
Proof.
  induction 1 as [|e l He _ IH]; [done|].
  change (filterNamesOf (e :: l)) with (filterNamesOf ([e] ++ l)).
  rewrite filterNamesOf_app, IH, app_nil_r. by destruct e.
Qed.

Lemma filterNamesOf_disjoint (g : Effect → bool) (l : list Effect) :
  Forall (λ e, g e = true) l → (∀ e, g e = true → isFilterCall e = false) →
  filterNamesOf l = [].
Proof.
  intros Hall Hdisj. apply filterNamesOf_none.
  eapply Forall_impl; [exact Hall | exact Hdisj].
Qed.

(** The loop falls through only when it has called every filter of the
    list, in order, and it returns early only with the pack blocked. *)
Lemma filterLoop_ends (filterNames : list string) (s : St) :
  ∃ calls,
    st_trace (filterLoop filterNames s).2 = st_trace s ++ calls ∧
    Forall (λ e, isFilterCall e = true) calls ∧
    (∃ k, filterNamesOf calls = take k filterNames) ∧
    ((filterLoop filterNames s).1 = Next tt → filterNamesOf calls = filterNames) ∧
    ((filterLoop filterNames s).1 = Returned →
     Blocked (st_pack (filterLoop filterNames s).2) = true) ∧
    ((filterLoop filterNames s).1 = Next tt ∨
     (filterLoop filterNames s).1 = Returned ∨
     (filterLoop filterNames s).1 = Panicking nil_dereference).
Proof.
  revert s. induction filterNames as [|filterName rest IH]; intros s.
  - exists []. simpl. rewrite app_nil_r. split_and!; auto; try done. by exists 0.
  - destruct (Filters (st_pack s) !! filterName) as [filter|] eqn:Hf.
    + rewrite (filterLoop_present _ _ _ _ Hf).
      destruct (FilterMsg filter (st_pack s) (st_world s)) as [pack world].
      cbn beta iota zeta.
      destruct (Blocked pack) eqn:Hb.
      * exists [CallFilterMsg filterName pack]. cbn [fst snd st_trace st_pack].
        split_and!; auto; try done. by exists 1.
      * destruct (IH (mkSt pack world
                        (st_trace s ++ [CallFilterMsg filterName pack]) (st_chan s)))
          as (calls & Htr & Hall & [k Hk] & Hnext & Hret & Hctl).
        exists (CallFilterMsg filterName pack :: calls).
        split_and!.
        -- rewrite Htr. cbn [st_trace]. by rewrite <- app_assoc.
        -- by constructor.
        -- exists (S k). rewrite filterNamesOf_call, Hk. reflexivity.
        -- intros Hn. rewrite filterNamesOf_call, (Hnext Hn). reflexivity.
        -- exact Hret.
        -- exact Hctl.
    + rewrite (filterLoop_missing _ _ _ Hf).
      exists [CallFilterMsgNil filterName]. cbn [fst snd st_trace st_pack].
      split_and!; auto; try done. by exists 1.
Qed.

Lemma decode_next_chan (s s1 : St) :
  decodeIfNecessary s = (Next tt, s1) → st_chan s1 = st_chan s.
Proof.
  intros Hdec. destruct (decode_frame s) as (_ & _ & Hc & _).
  by rewrite Hdec in Hc.
Qed.

(** In a cycle whose chain is configured the filters are called in the
    order the chain lists them, from the first on, and whenever the cycle
    delivers to an output it has called every filter of the chain. *)
Theorem filters_run_in_chain_order (pack : PipelinePack) (world : World) (c : Chan)
    (s1 : St) (chain : FilterChainDef) :
  decodeIfNecessary (mkSt pack world [] c) = (Next tt, s1) →
  FilterChains (Config (st_pack s1)) !! chainNameFor (st_pack s1) = Some chain →
  let trace := st_trace (runPipeline pack world c).2 in
  (∃ k, filterNamesOf trace = take k (chainFilters chain)) ∧
  (0 < countEffects isDeliverCall trace → filterNamesOf trace = chainFilters chain).
Proof.
  intros Hdec Hchain trace.
  destruct (decode_next _ _ Hdec) as (D & HD & HDall). simpl in HD.
  pose proof (filterProcessor_routed s1) as Hfp.
  rewrite (runChain_present _ _ _ _ Hchain) in Hfp.
  match type of Hfp with context [filterLoop ?names ?s] =>
    destruct (filterLoop_ends names s) as (F & HF & HFall & Hk & Hnext & Hret & Hctl);
    destruct (filterLoop names s) as [r2 s2] eqn:Hloop
  end.
  cbn [fst snd st_trace] in HF, Hnext, Hret, Hctl.
  assert (Hbody : ∃ V,
    st_trace (pipeline_body (mkSt pack world [] c)).2 = D ++ F ++ V ∧
    Forall (λ e, isDeliveryEffect e = true) V ∧
    (V ≠ [] → r2 = Next tt)).
  { rewrite pipeline_body_eq, Hdec, Hfp.
    destruct Hctl as [-> | [-> | ->]].
    - destruct (Blocked (st_pack s2)).
      + exists []. cbn [snd]. rewrite HF, HD, app_nil_r. by split_and!.
      + rewrite deliverLoop_eq.
        exists (flat_map (deliveryEffect (Outputs (st_pack s2)))
                  (rangeMap (OutputNames (st_pack s2)))).
        cbn [snd st_trace]. rewrite HF, HD, <- app_assoc.
        split_and!; [done | apply deliveryEffects_class | done].
    - rewrite (Hret eq_refl). exists []. cbn [snd].
      rewrite HF, HD, app_nil_r. by split_and!.
    - exists []. cbn [snd]. rewrite HF, HD, app_nil_r. by split_and!. }
  destruct Hbody as (V & HbodyTr & HV & HVnext).
  assert (Hshape : ∃ Z,
    trace = D ++ F ++ V ++ Z ∧
    Forall (λ e, isZeroCall e || isRecycleSend e = true) Z).
  { unfold trace. rewrite runPipeline_eq. cbn zeta.
    destruct (chan_send _ _); cbn [snd st_trace]; rewrite HbodyTr, <- !app_assoc.
    - exists [CallZero; SendRecycle]. split; [done | by repeat constructor].
    - exists [CallZero]. split; [done | by repeat constructor]. }
  destruct Hshape as (Z & -> & HZ).
  assert (Hnames : filterNamesOf (D ++ F ++ V ++ Z) = filterNamesOf F).
  { rewrite !filterNamesOf_app.
    rewrite (filterNamesOf_disjoint _ D HDall) by (by intros []).
    rewrite (filterNamesOf_disjoint _ V HV) by (by intros []).
    rewrite (filterNamesOf_disjoint _ Z HZ) by (by intros []).
    by rewrite app_nil_r. }
  rewrite Hnames. split; [exact Hk|].
  intros Hdel. apply Hnext, HVnext. intros ->.
  unfold countEffects in Hdel. rewrite !List.filter_app in Hdel.
  rewrite (filter_disjoint _ _ D HDall) in Hdel by (by intros []).
  rewrite (filter_disjoint _ _ F HFall) in Hdel by (by intros []).
  rewrite (filter_disjoint _ _ Z HZ) in Hdel by (by intros []).
  simpl in Hdel. lia.
Qed.


(** ** The decode step *)

Lemma route_frame (s : St) :
  ∃ R,
    st_trace (filterProcessor s).2 = st_trace s ++ R ∧
    Forall (λ e, isRouteEffect e = true) R.
Proof.
  rewrite filterProcessor_routed.
  destruct (FilterChains (Config (st_pack s)) !! chainNameFor (st_pack s))
    as [chain|] eqn:Hchain.
  - rewrite (runChain_present _ _ _ _ Hchain).
    match goal with |- context [filterLoop ?names ?s'] =>
      destruct (filterLoop_ends names s') as (F & HF & HFall & _)
    end.
    exists F. split; [exact HF|].
    eapply Forall_impl; [exact HFall | by intros []].
  - rewrite (runChain_absent _ _ _ Hchain). eexists. split; [reflexivity|].
    by repeat constructor.
Qed.

(** What follows the decode step in the body: effects of the router and
    of the filters, then effects of the delivery loop. *)
Lemma body_after_decode (s0 s1 : St) :
  decodeIfNecessary s0 = (Next tt, s1) →
  ∃ R V,
    st_trace (pipeline_body s0).2 = st_trace s1 ++ R ++ V ∧
    Forall (λ e, isRouteEffect e = true) R ∧
    Forall (λ e, isDeliveryEffect e = true) V.
Proof.
  intros Hdec. rewrite pipeline_body_eq, Hdec.
  destruct (route_frame s1) as (R & HR & HRall).
  destruct (filterProcessor s1) as [r2 s2]. cbn [snd] in HR.
  assert (Hstop : ∃ V, st_trace s2 = st_trace s1 ++ R ++ V ∧
                       Forall (λ e, isDeliveryEffect e = true) V).
  { exists []. by rewrite app_nil_r. }
  assert (Hgo : ∃ V,
    st_trace (if Blocked (st_pack s2) then (Returned, s2)
              else deliverLoop (rangeMap (OutputNames (st_pack s2))) s2).2
      = st_trace s1 ++ R ++ V ∧
    Forall (λ e, isDeliveryEffect e = true) V).
  { destruct (Blocked (st_pack s2)); [exact Hstop|].
    rewrite deliverLoop_eq. eexists. cbn [snd st_trace].
    rewrite HR, <- app_assoc. split; [reflexivity | apply deliveryEffects_class]. }
  destruct Hstop as (V0 & HV0 & HV0all). destruct Hgo as (V1 & HV1 & HV1all).
  destruct r2 as [[]| | |]; cbn [snd]; eauto.
Qed.

Lemma count_app (f : Effect → bool) (l1 l2 : list Effect) :
  countEffects f (l1 ++ l2) = countEffects f l1 + countEffects f l2.
Proof. unfold countEffects. by rewrite List.filter_app, length_app. Qed.

Lemma count_disjoint (f g : Effect → bool) (l : list Effect) :
  Forall (λ e, g e = true) l → (∀ e, g e = true → f e = false) →
  countEffects f l = 0.
Proof.
  intros Hall Hdisj. unfold countEffects.
  by rewrite (filter_disjoint f g l Hall Hdisj).
Qed.

(** The trace of a cycle is the trace of its body and then the reset,
    followed by the send when the channel takes it. *)
Lemma runPipeline_trace (pack : PipelinePack) (world : World) (c : Chan) :
  ∃ Z,
    st_trace (runPipeline pack world c).2 =
      st_trace (pipeline_body (mkSt pack world [] c)).2 ++ Z ∧
    Forall (λ e, isZeroCall e || isRecycleSend e = true) Z.
Proof.
  rewrite runPipeline_eq. cbn zeta. destruct (chan_send _ _); cbn [snd st_trace].
  - exists [CallZero; SendRecycle]. split; [done | by repeat constructor].
  - exists [CallZero]. split; [done | by repeat constructor].
Qed.

(** A cycle calls [Decode] at most once: not at all for a pack that
    comes in decoded or whose decoder name is not in the pack, and once
    otherwise, whether the decoder fails or not. *)
Theorem decode_at_most_once (pack : PipelinePack) (world : World) (c : Chan) :
  countEffects isDecodeCall (st_trace (runPipeline pack world c).2) =
  if Decoded pack then 0
  else match Decoders pack !! Decoder pack with
       | Some _ => 1
       | None => 0
       end.
Proof.
  destruct (runPipeline_trace pack world c) as (Z & -> & HZ).
  rewrite count_app, (count_disjoint _ _ Z HZ) by (by intros []).
  rewrite Nat.add_0_r.
  pose proof (decodeIfNecessary_eq (mkSt pack world [] c)) as Heq.
  cbn [st_pack st_world st_trace st_chan] in Heq.
  assert (Hnext : ∀ s1, decodeIfNecessary (mkSt pack world [] c) = (Next tt, s1) →
    countEffects isDecodeCall (st_trace (pipeline_body (mkSt pack world [] c)).2) =
    countEffects isDecodeCall (st_trace s1)).
  { intros s1 Hdec. destruct (body_after_decode _ _ Hdec) as (R & V & -> & HR & HV).
    rewrite !count_app, (count_disjoint _ _ R HR), (count_disjoint _ _ V HV)
      by (by intros []).
    lia. }
  assert (Hret : ∀ s1, decodeIfNecessary (mkSt pack world [] c) = (Returned, s1) →
    st_trace (pipeline_body (mkSt pack world [] c)).2 = st_trace s1).
  { intros s1 Hdec. by rewrite pipeline_body_eq, Hdec. }
  destruct (Decoded pack).
  - by rewrite (Hnext _ Heq).
  - cbn zeta in Heq. destruct (Decoders pack !! Decoder pack) as [decoder|].
    + destruct (Decode decoder pack world) as [[pack' world'] [err|]].
      * by rewrite (Hret _ Heq).
      * by rewrite (Hnext _ Heq).
    + by rewrite (Hret _ Heq).
Qed.

(** A pack that is not decoded and whose decoder is missing or fails:
    the cycle logs the decoder name the pack came in with, calls no
    filter and no output, and returns normally with the pack, as the
    decoder left it and reset, at the back of the recycle channel. *)
Theorem decode_abort (pack : PipelinePack) (world : World) (c : Chan) :
  Decoded pack = false →
  length (chanBuf c) < chanCap c →
  match Decoders pack !! Decoder pack with
  | None =>
      runPipeline pack world c =
      (Next tt,
       mkSt (Zero pack) world
         [Log ("Decoder doesn't exist: " +:+ Decoder pack +:+ newline);
          CallZero; SendRecycle]
         (mkChan (chanCap c) (chanBuf c ++ [Zero pack])))
  | Some decoder =>
      ∀ pack' world' err,
        Decode decoder pack world = (pack', world', Some err) →
        runPipeline pack world c =
        (Next tt,
         mkSt (Zero pack') world'
           [CallDecode (Decoder pack) (Some err);
            Log ("Error decoding message (" +:+ Decoder pack +:+ "): " +:+ err);
            CallZero; SendRecycle]
           (mkChan (chanCap c) (chanBuf c ++ [Zero pack'])))
  end.
Proof.
  intros Hd Hroom. apply Nat.ltb_lt in Hroom.
  pose proof (decodeIfNecessary_eq (mkSt pack world [] c)) as Heq.
  cbn [st_pack st_world st_trace st_chan] in Heq. rewrite Hd in Heq. cbn zeta in Heq.
  pose proof (runPipeline_eq pack world c) as Hrun. cbn zeta in Hrun.
  rewrite pipeline_body_eq in Hrun.
  destruct (Decoders pack !! Decoder pack) as [decoder|].
  - intros pack' world' err Hdecode. rewrite Hdecode in Heq.
    rewrite Heq in Hrun. cbn [fst snd st_pack st_world st_trace st_chan] in Hrun.
    unfold chan_send in Hrun. by rewrite Hroom in Hrun.
  - rewrite Heq in Hrun. cbn [fst snd st_pack st_world st_trace st_chan] in Hrun.
    unfold chan_send in Hrun. by rewrite Hroom in Hrun.
Qed.

(** ** Delivery *)

(** An output name that the pack does not select, because a filter has
    set its entry to false or because it has no entry, gets no call of
    [Deliver]. *)
Theorem unselected_output_skipped (pack : PipelinePack) (world : World) (c : Chan)
    (s1 s2 : St) (name : string) :
  decodeIfNecessary (mkSt pack world [] c) = (Next tt, s1) →
  call filterProcessor s1 = (Next tt, s2) →
  OutputNames (st_pack s2) !! name = Some false ∨
  OutputNames (st_pack s2) !! name = None →
  countEffects (isDeliverTo name) (st_trace (runPipeline pack world c).2) = 0.
Proof.
  intros Hdec Hfp Hsel.
  destruct (decode_next _ _ Hdec) as (D & HD & HDall). simpl in HD.
  destruct (route_frame s1) as (R & HR & HRall).
  assert (Hs2 : (filterProcessor s1).2 = s2).
  { unfold call in Hfp. by destruct (filterProcessor s1) as [[[]| | |] s2'];
      inversion Hfp. }
  rewrite Hs2 in HR.
  destruct (runPipeline_trace pack world c) as (Z & -> & HZ).
  rewrite count_app, (count_disjoint _ _ Z HZ) by (by intros []).
  rewrite Nat.add_0_r.
  assert (Hbody : ∃ V,
    st_trace (pipeline_body (mkSt pack world [] c)).2 = st_trace s2 ++ V ∧
    (V = [] ∨ V = flat_map (deliveryEffect (Outputs (st_pack s2)))
                      (rangeMap (OutputNames (st_pack s2))))).
  { rewrite pipeline_body_eq, Hdec. unfold call in Hfp.
    destruct (filterProcessor s1) as [[[]| | |] s2']; inversion Hfp; subst s2';
      (destruct (Blocked (st_pack s2));
       [ exists []; rewrite app_nil_r; auto
       | rewrite deliverLoop_eq; eexists; split; [reflexivity | by right] ]). }
  destruct Hbody as (V & -> & HV).
  rewrite HR, HD, !count_app.
  rewrite (count_disjoint _ _ D HDall), (count_disjoint _ _ R HRall)
    by (by intros []).
  destruct HV as [-> | ->]; [done|]. cbn [Nat.add].
  unfold countEffects. rewrite filter_none; [done|].
  apply Forall_forall. intros e He.
  apply list_elem_of_In, in_flat_map in He as ([n u] & Hin & He).
  apply list_elem_of_In in Hin, He.
  destruct (decide (n = name)) as [->|Hne].
  - rewrite (rangeMap_ok _ (OutputNames (st_pack s2))) in Hin.
    apply elem_of_map_to_list in Hin.
    destruct Hsel as [Hsel | Hsel]; rewrite Hsel in Hin; [|done].
    inversion Hin; subst u. unfold deliveryEffect in He. cbn in He.
    by apply elem_of_nil in He.
  - by eapply isDeliverTo_other.
Qed.


Lemma selectOutputs_Blocked (outputs : list string) (pack : PipelinePack) :
  Blocked (selectOutputs outputs pack) = Blocked pack.
Proof.
  unfold selectOutputs. revert pack.
  induction outputs as [|o rest IH]; intros pack; simpl; [done|]. by rewrite IH.
Qed.

Lemma routed_Blocked (pack : PipelinePack) : Blocked (routed pack) = Blocked pack.
Proof. unfold routed. by destruct (LocateChain _ _) as [name [|]]. Qed.

(** The router does not clear [Blocked]: a pack that comes in decoded
    and blocked and is routed to a chain without filters is recycled
    without a call of [Deliver], though the chain has outputs. *)
Theorem blocked_on_entry_delivers_nothing (pack : PipelinePack) (world : World)
    (c : Chan) (chain : FilterChainDef) :
  Decoded pack = true → Blocked pack = true →
  FilterChains (Config pack) !! chainNameFor pack = Some chain →
  chainFilters chain = [] →
  length (chanBuf c) < chanCap c →
  let left := selectOutputs (chainOutputs chain) (routed pack) in
  runPipeline pack world c =
  (Next tt,
   mkSt (Zero left) world [CallZero; SendRecycle]
     (mkChan (chanCap c) (chanBuf c ++ [Zero left]))).
Proof.
  intros Hd Hb Hchain Hnil Hroom left. apply Nat.ltb_lt in Hroom.
  pose proof (runPipeline_eq pack world c) as Hrun. cbn zeta in Hrun.
  rewrite pipeline_body_eq, decodeIfNecessary_eq in Hrun.
  cbn [st_pack] in Hrun. rewrite Hd in Hrun.
  rewrite filterProcessor_routed in Hrun. cbn [st_pack st_world st_trace st_chan] in Hrun.
  rewrite (runChain_present _ _ _ _ Hchain), Hnil in Hrun.
  cbn [filterLoop st_pack st_world st_trace st_chan] in Hrun.
  change (mret tt : Go unit) with (λ s : St, (Next tt, s)) in Hrun.
  cbn beta iota in Hrun. cbn [st_pack] in Hrun.
  rewrite selectOutputs_Blocked, routed_Blocked, Hb in Hrun.
  cbn [fst snd st_pack st_world st_trace st_chan] in Hrun.
  unfold chan_send in Hrun. by rewrite Hroom in Hrun.
Qed.

(** ** BroadcastEvent and the signal loop *)

Lemma BroadcastEvent_trace (config : PipelineConfig) (eventType : string)
    (world : World) :
  (BroadcastEvent config eventType world).2 =
  match (notifyPost eventType world).2 with
  | Some err => [CallPost eventType (Some err);
                 Log ("Error sending " +:+ err +:+ " event:")]
  | None => [CallPost eventType None]
  end
  ++ flat_map (globalEffect KFilter eventType) (rangeMap (cfgFilters config))
  ++ flat_map (globalEffect KOutput eventType) (rangeMap (cfgOutputs config)).
Proof.
  unfold BroadcastEvent.
  destruct (notifyPost eventType world) as [world' err].
  rewrite !notifyGlobals_trace. cbn [fst snd]. by rewrite <- app_assoc.
Qed.

Lemma globalEffects_no_post {T : Type} (kind : PluginKind) (eventType ev : string)
    (entries : list (string * PluginWrapper T)) :
  countEffects (isPostOf ev) (flat_map (globalEffect kind eventType) entries) = 0.
Proof.
  unfold countEffects. rewrite filter_none; [done|].
  apply Forall_forall. intros e He.
  apply list_elem_of_In, in_flat_map in He as ([n u] & _ & He).
  unfold globalEffect in He. cbn [fst snd] in He.
  destruct (global u); [|done]. by destruct He as [<-|[]].
Qed.

Lemma BroadcastEvent_posts (config : PipelineConfig) (eventType ev : string)
    (world : World) :
  countEffects (isPostOf ev) (BroadcastEvent config eventType world).2 =
  if decide (eventType = ev) then 1 else 0.
Proof.
  rewrite BroadcastEvent_trace, !count_app, !globalEffects_no_post, !Nat.add_0_r.
  unfold countEffects.
  destruct (notifyPost eventType world).2; cbn [List.filter isPostOf];
    destruct (decide (eventType = ev)) as [Heq|Hne].
  - by rewrite (bool_decide_eq_true_2 _ Heq).
  - by rewrite (bool_decide_eq_false_2 _ Hne).
  - by rewrite (bool_decide_eq_true_2 _ Heq).
  - by rewrite (bool_decide_eq_false_2 _ Hne).
Qed.

(** [BroadcastEvent] calls no [Event] handler under a name that has no
    filter wrapper with a global, and none under a name that has no
    output wrapper with a global: a wrapper whose global is nil is passed
    over. *)
Theorem broadcast_skips_nil_globals (config : PipelineConfig)
    (eventType : string) (world : World) (name : string) :
  let trace := (BroadcastEvent config eventType world).2 in
  (cfgFilters config !! name ≫= global = None →
   countEffects (isEventCall KFilter name eventType) trace = 0) ∧
  (cfgOutputs config !! name ≫= global = None →
   countEffects (isEventCall KOutput name eventType) trace = 0).
Proof.
  intros trace. unfold trace. rewrite BroadcastEvent_trace.
  assert (Hpost : ∀ kind,
    countEffects (isEventCall kind name eventType)
      match (notifyPost eventType world).2 with
      | Some err => [CallPost eventType (Some err);
                     Log ("Error sending " +:+ err +:+ " event:")]
      | None => [CallPost eventType None]
      end = 0).
  { intros kind. by destruct (notifyPost eventType world).2. }
  assert (Hskip : ∀ (T : Type) kind (wrappers : gmap string (PluginWrapper T)),
    wrappers !! name ≫= global = None →
    countEffects (isEventCall kind name eventType)
      (flat_map (globalEffect kind eventType) (rangeMap wrappers)) = 0).
  { intros T kind wrappers Hnone. unfold countEffects.
    rewrite filter_none; [done|]. apply Forall_forall. intros e He.
    apply list_elem_of_In, in_flat_map in He as ([n u] & Hin & He).
    apply list_elem_of_In in Hin, He.
    destruct (decide (n = name)) as [->|Hne].
    - rewrite (rangeMap_ok _ wrappers) in Hin. apply elem_of_map_to_list in Hin.
      rewrite Hin in Hnone. cbn in Hnone.
      unfold globalEffect in He. cbn [fst snd] in He. rewrite Hnone in He.
      by apply elem_of_nil in He.
    - by eapply isEventCall_other. }
  split; intros Hnone; rewrite !count_app, Hpost.
  - rewrite (Hskip _ KFilter _ Hnone). unfold countEffects.
    by rewrite (isEventCall_other_kind KFilter KOutput).
  - rewrite (Hskip _ KOutput _ Hnone). unfold countEffects.
    by rewrite (isEventCall_other_kind KOutput KFilter).
Qed.



(** Without a [SIGINT] the loop does not end: it has posted [RELOAD] for
    every [SIGHUP], never [STOP], and waits for the next signal. *)
Theorem sigListener_waits_without_SIGINT (config : PipelineConfig)
    (sigs : list Z) (world : World) :
  SIGINT ∉ sigs →
  let run := sigListener config sigs (world, []) in
  run.1 = Waiting ∧
  countEffects (isPostOf STOP) run.2.2 = 0 ∧
  countEffects (isPostOf RELOAD) run.2.2 = length (List.filter (Z.eqb SIGHUP) sigs).
Proof.
  intros Hnot.
  assert (Hgen : ∀ acc,
    (sigListener config sigs acc).1 = Waiting ∧
    countEffects (isPostOf STOP) (sigListener config sigs acc).2.2 =
      countEffects (isPostOf STOP) acc.2 ∧
    countEffects (isPostOf RELOAD) (sigListener config sigs acc).2.2 =
      countEffects (isPostOf RELOAD) acc.2 + length (List.filter (Z.eqb SIGHUP) sigs)).
  { induction sigs as [|sig sigs IH]; intros acc.
    - simpl. split_and!; [done | done | lia].
    - apply not_elem_of_cons in Hnot as [Hne Hnot].
      cbn [sigListener List.filter]. rewrite (Z.eqb_sym SIGHUP sig).
      destruct (sig =? SIGHUP)%Z eqn:Hhup.
      + pose proof (BroadcastEvent_posts config RELOAD STOP acc.1) as Hs.
        pose proof (BroadcastEvent_posts config RELOAD RELOAD acc.1) as Hr.
        rewrite decide_False in Hs by done. rewrite decide_True in Hr by done.
        destruct (BroadcastEvent config RELOAD acc.1) as [w trace].
        cbn [fst snd] in *.
        destruct (IH Hnot (w, acc.2 ++ trace)) as (Hb & Hstop & Hreload).
        rewrite Hb, Hstop, Hreload. cbn [fst snd].
        rewrite !count_app, Hs, Hr.
        cbn [length]. split_and!; [done | lia | lia].
      + assert ((sig =? SIGINT)%Z = false) as -> by (apply Z.eqb_neq; congruence).
        by apply IH. }
  intros run. destruct (Hgen (world, [])) as (Hb & Hs & Hr). by split_and!.
Qed.

(** ** The pool: sizes and the state of its packs *)

Lemma int_wrap_in_range (z : Z) : (- 2 ^ 63 ≤ z < 2 ^ 63)%Z → int_wrap z = z.
Proof. intros Hz. unfold int_wrap. rewrite Z.mod_small; lia. Qed.

(** A negative [PoolSize].  Below -1 the size [PoolSize + 1] that [Run]
    hands to [make] is negative, [make] panics and no pool is built.  At
    -1 the size is 0: the channel has no buffer, the fill loop has nothing
    to do, the pool holds no pack, every acquire waits and no input has a
    pack to submit. *)
Theorem startPool_negative_size (config : PipelineConfig) (world : World) :
  (- 2 ^ 63 ≤ PoolSize config < 0)%Z →
  ((PoolSize config < -1)%Z → startPool config world = None) ∧
  (PoolSize config = (-1)%Z →
   startPool config world = Some (mkPool (mkChan 0 []) [] world) ∧
   pool_step Acquire (mkPool (mkChan 0 []) [] world) = Suspends ∧
   ∀ i fill, pool_step (Submit i fill) (mkPool (mkChan 0 []) [] world) = NoSuchPack).
Proof.
  intros Hrange. unfold startPool, newPool, make_chan.
  rewrite int_wrap_in_range by lia. split.
  - intros Hneg.
    assert ((PoolSize config + 1 <? 0)%Z = true) as -> by (apply Z.ltb_lt; lia).
    reflexivity.
  - intros ->. cbn. split_and!; [done | done |]. intros i fill. by destruct i.
Qed.

Lemma fillPool_reset (n : nat) (config : PipelineConfig) (c c' : Chan)
    (world world' : World) :
  Forall isReset (chanBuf c) →
  fillPool n config c world = Some (c', world') →
  Forall isReset (chanBuf c').
Proof.
  revert c world. induction n as [|n IH]; intros c world Hall Hfill.
  - cbn in Hfill. by inversion Hfill; subst.
  - cbn [fillPool] in Hfill.
    pose proof (NewPipelinePack_isReset config world) as Hnew.
    destruct (NewPipelinePack config world) as [pack world1]. cbn [fst] in Hnew.
    destruct (chan_send c pack) as [c1|] eqn:Hsend; [|done].
    cbn [mbind option_bind] in Hfill. apply (IH c1 world1); [|exact Hfill].
    unfold chan_send in Hsend.
    destruct (length (chanBuf c) <? chanCap c)%nat; [|done].
    inversion Hsend; subst c1. cbn [chanBuf]. apply Forall_app. split; [done|].
    by constructor.
Qed.

Lemma pool_step_reset (op : PoolOp) (pool pool' : Pool) :
  Forall isReset (chanBuf (recycleChan pool)) →
  pool_step op pool = Stepped pool' →
  Forall isReset (chanBuf (recycleChan pool')).
Proof.
  intros Hall Hstep. destruct op as [|i fill]; simpl in Hstep.
  - unfold chan_recv in Hstep.
    destruct (chanBuf (recycleChan pool)) as [|pack rest] eqn:Hbuf; [done|].
    inversion Hstep; subst pool'. cbn. by inversion Hall.
  - destruct (outstanding pool !! i) as [pack|]; [|done].
    pose proof (runPipeline_eq (fill pack) (poolWorld pool) (recycleChan pool)) as Hrun.
    cbn zeta in Hrun. unfold chan_send in Hrun.
    destruct (length (chanBuf (recycleChan pool)) <? chanCap (recycleChan pool))%nat.
    + rewrite Hrun in Hstep. cbn [fst snd] in Hstep.
      assert (Hgoal : Forall isReset
        (chanBuf (recycleChan pool) ++
           [Zero (st_pack (pipeline_body
                    (mkSt (fill pack) (poolWorld pool) [] (recycleChan pool))).2)])).
      { apply Forall_app. split; [done|]. constructor; [|done]. apply Zero_isReset. }
      destruct ((pipeline_body _).1) as [[]| | |];
        inversion Hstep; subst pool'; exact Hgoal.
    + by rewrite Hrun in Hstep.
Qed.

(** Every pack in the recycle channel is a reset pack, from the fill on
    and after any schedule of acquires and submits, so the pack an acquire
    hands to an input is a reset one. *)
Theorem pool_packs_are_reset (config : PipelineConfig) (world : World)
    (ops : list PoolOp) :
  match startPool config world with
  | Some pool0 =>
      match pool_run ops pool0 with
      | Some pool =>
          Forall isReset (chanBuf (recycleChan pool)) ∧
          match pool_step Acquire pool with
          | Stepped pool' =>
              ∃ pack, outstanding pool' = outstanding pool ++ [pack] ∧ isReset pack
          | _ => True
          end
      | None => True
      end
  | None => True
  end.
Proof.
  unfold startPool, newPool.
  destruct (make_chan (int_wrap (PoolSize config + 1))) as [c|] eqn:Hmake; [|done].
  cbn [mbind option_bind].
  destruct (fillPool _ config c world) as [[c0 world0]|] eqn:Hfill; [|done].
  assert (H0all : Forall isReset (chanBuf c0)).
  { eapply fillPool_reset; [|exact Hfill].
    unfold make_chan in Hmake. destruct (_ <? 0)%Z; [done|].
    inversion Hmake; subst c. constructor. }
  assert (Hrun : ∀ ops' pool0 pool,
    Forall isReset (chanBuf (recycleChan pool0)) →
    pool_run ops' pool0 = Some pool →
    Forall isReset (chanBuf (recycleChan pool))).
  { intros ops'. induction ops' as [|op ops' IH]; intros pool0 pool Hall Hrun.
    - cbn in Hrun. by inversion Hrun; subst.
    - cbn in Hrun. destruct (pool_step op pool0) as [pool1| | |] eqn:Hstep; try done.
      eapply IH; [|exact Hrun]. by eapply pool_step_reset. }
  destruct (pool_run ops _) as [pool|] eqn:Hops; [|done].
  pose proof (Hrun ops (mkPool c0 [] world0) pool H0all Hops) as Hall.
  split; [exact Hall|].
  simpl. unfold chan_recv.
  destruct (chanBuf (recycleChan pool)) as [|pack rest]; [done|].
  exists pack. split; [done | by inversion Hall].
Qed.

End Coverage.

(** * The further properties on the concrete installation *)

Section CoverageWitnesses.

Import Scenario Scenario2.
#[local] Existing Instance types.
#[local] Existing Instance plugins.
#[local] Existing Instance rangeSorted.

Lemma NewPipelinePack_instances_witness :
  let pack := (NewPipelinePack config []).1 in
  (is_Some (Decoders pack !! "ghost") ↔ is_Some (cfgDecoders config !! "ghost")) ∧
  (is_Some (Filters pack !! "ghost") ↔ is_Some (cfgFilters config !! "ghost")) ∧
  (is_Some (Outputs pack !! "ghost") ↔ is_Some (cfgOutputs config !! "ghost")).
Proof. apply (NewPipelinePack_instances rangeSorted_ok config [] "ghost"). Defined.

Lemma Zero_fixed_iff_witness : Zero usedPack = usedPack ↔ isReset usedPack.
Proof. apply (Zero_fixed_iff rangeSorted_ok usedPack). Defined.

Lemma Zero_of_new_pack_witness :
  let pack := (NewPipelinePack config []).1 in
  Zero pack = pack ∧ len (MsgBytes pack) = Z.to_nat 65536 ∧
  Config pack = config ∧ Message pack = emptyMessage.
Proof. apply (Zero_of_new_pack rangeSorted_ok config []). Defined.

Lemma Zero_idempotent_witness :
  Zero (Zero usedPack) = Zero usedPack ∧
  Message (Zero usedPack) = Message usedPack ∧
  Config (Zero usedPack) = Config usedPack ∧
  Decoders (Zero usedPack) = Decoders usedPack ∧
  Filters (Zero usedPack) = Filters usedPack ∧
  Outputs (Zero usedPack) = Outputs usedPack ∧
  array (MsgBytes (Zero usedPack)) = array (MsgBytes usedPack).
Proof. apply (Zero_idempotent rangeSorted_ok usedPack). Defined.

Lemma routing_selects_outputs_witness :
  let chain := mkChain ["out2"; "out1"] ["noop"] in
  let s := afterDecode "lossy" in
  let routedState := afterRouting "lossy" chain in
  filterProcessor s = filterLoop (chainFilters chain) routedState ∧
  FilterChain (st_pack routedState) = chainNameFor (st_pack s) ∧
  (∀ name, OutputNames (st_pack routedState) !! name =
           if decide (name ∈ chainOutputs chain) then Some true else None) ∧
  (chainFilters chain = [] → filterProcessor s = (Next tt, routedState)).
Proof.
  apply (routing_selects_outputs (afterDecode "lossy") (mkChain ["out2"; "out1"] ["noop"])).
  vm_compute. reflexivity.
Defined.

Lemma filters_run_in_chain_order_witness :
  let trace := st_trace (cycleOf "lossy").2 in
  (∃ k, filterNamesOf trace = take k ["noop"]) ∧
  (0 < countEffects isDeliverCall trace → filterNamesOf trace = ["noop"]).
Proof.
  apply (filters_run_in_chain_order (received "lossy") [] emptyChan
           (afterDecode "lossy") (mkChain ["out2"; "out1"] ["noop"]));
    vm_compute; reflexivity.
Defined.

Lemma decode_abort_witness :
  runPipeline (set_Decoder "failing" (received "lossy")) [] emptyChan =
  (Next tt,
   mkSt (Zero (set_Decoder "failing" (received "lossy"))) []
     [CallDecode "failing" (Some "unexpected end of input");
      Log ("Error decoding message (" +:+ "failing" +:+ "): "
           +:+ "unexpected end of input");
      CallZero; SendRecycle]
     (mkChan 3 ([] ++ [Zero (set_Decoder "failing" (received "lossy"))]))).
Proof.
  pose proof (decode_abort (set_Decoder "failing" (received "lossy")) [] emptyChan)
    as Hthm.
  change (Decoders (set_Decoder "failing" (received "lossy"))
            !! Decoder (set_Decoder "failing" (received "lossy")))
    with (Some FailingDecoder) in Hthm.
  apply Hthm.
  - reflexivity.
  - simpl. lia.
  - reflexivity.
Defined.

Lemma unselected_output_skipped_witness :
  countEffects (isDeliverTo "out3") (st_trace (cycleOf "lossy").2) = 0.
Proof.
  apply (unselected_output_skipped rangeSorted_ok (received "lossy") [] emptyChan
           (afterDecode "lossy") (afterFilters "lossy") "out3").
  - vm_compute. reflexivity.
  - vm_compute. reflexivity.
  - right. vm_compute. reflexivity.
Defined.

Lemma broadcast_skips_nil_globals_witness :
  let trace := (BroadcastEvent config RELOAD []).2 in
  (cfgFilters config !! "noop" ≫= global = None →
   countEffects (isEventCall KFilter "noop" RELOAD) trace = 0) ∧
  (cfgOutputs config !! "noop" ≫= global = None →
   countEffects (isEventCall KOutput "noop" RELOAD) trace = 0).
Proof. apply (broadcast_skips_nil_globals rangeSorted_ok config RELOAD [] "noop"). Defined.


Lemma sigListener_waits_without_SIGINT_witness :
  let run := sigListener config [SIGHUP; 15%Z] ([], []) in
  run.1 = Waiting ∧
  countEffects (isPostOf STOP) run.2.2 = 0 ∧
  countEffects (isPostOf RELOAD) run.2.2 =
    length (List.filter (Z.eqb SIGHUP) [SIGHUP; 15%Z]).
Proof.
  apply (sigListener_waits_without_SIGINT config [SIGHUP; 15%Z] []).
  apply (bool_decide_unpack _). vm_compute. exact I.
Defined.

Lemma startPool_negative_size_witness :
  startPool (sized (-3)) [] = None ∧
  startPool (sized (-1)) [] = Some (mkPool (mkChan 0 []) [] []) ∧
  pool_step Acquire (mkPool (mkChan 0 []) [] []) = Suspends.
Proof.
  destruct (startPool_negative_size (sized (-3)) []) as [Hbelow _].
  { change (- 2 ^ 63 ≤ -3 < 0)%Z. lia. }
  destruct (startPool_negative_size (sized (-1)) []) as [_ Hunbuffered].
  { change (- 2 ^ 63 ≤ -1 < 0)%Z. lia. }
  split.
  - apply Hbelow. change (-3 < -1)%Z. lia.
  - destruct Hunbuffered as (Hpool & Hacquire & _); [reflexivity|]. by split.
Defined.

Lemma pool_packs_are_reset_witness :
  match startPool config [] with
  | Some pool0 =>
      match pool_run [Acquire; Submit 0 id; Acquire] pool0 with
      | Some pool =>
          Forall isReset (chanBuf (recycleChan pool)) ∧
          match pool_step Acquire pool with
          | Stepped pool' =>
              ∃ pack, outstanding pool' = outstanding pool ++ [pack] ∧ isReset pack
          | _ => True
          end
      | None => True
      end
  | None => True
  end.
Proof.
  apply (pool_packs_are_reset rangeSorted_ok config [] [Acquire; Submit 0 id; Acquire]).
Defined.

Lemma blocked_on_entry_delivers_nothing_witness :
  let pack := set_Blocked true (set_Decoded true (received "")) in
  let left := selectOutputs ["out1"] (routed pack) in
  runPipeline pack [] emptyChan =
  (Next tt,
   mkSt (Zero left) [] [CallZero; SendRecycle] (mkChan 3 ([] ++ [Zero left]))).
Proof.
  apply (blocked_on_entry_delivers_nothing
           (set_Blocked true (set_Decoded true (received ""))) [] emptyChan
           (mkChain ["out1"] [])).
  - reflexivity.
  - reflexivity.
  - vm_compute. reflexivity.
  - reflexivity.
  - simpl. lia.
Defined.

End CoverageWitnesses.
